(** * Glendale fire-risk pipeline: terrain derivatives and risk model

    A shallow embedding of [scripts/derive_terrain.py] and
    [scripts/build_risk_model.py].  Rasters are lists of rows; a cell of a
    floating-point band is an IEEE-754 binary64 datum in canonical form
    ([spec_float] of the Standard Library, whose operations are the
    specification of the hardware ones), a cell of a risk band is a [uint8]
    held in [Z]. *)

From Stdlib Require Import ZArith Bool Lia QArith Qpower Qround Lqa.
From Stdlib Require Import Floats.
From stdpp Require Import base option list.

Set Warnings "-inexact-float".
Local Open Scope Z_scope.

(* ===================================================================== *)
(** * Part I: definitions                                                  *)
(* ===================================================================== *)

(** ** binary64 *)

Abbreviation float := spec_float (only parsing).

Definition prec : Z := 53.
Definition emax : Z := 1024.

Definition fadd : float -> float -> float := SFadd prec emax.
Definition fsub : float -> float -> float := SFsub prec emax.
Definition fmul : float -> float -> float := SFmul prec emax.
Definition fdiv : float -> float -> float := SFdiv prec emax.
Definition fsqrt : float -> float := SFsqrt prec emax.
Definition fneg : float -> float := SFopp.
Definition fabs : float -> float := SFabs.

(** The six comparisons.  Each one is false as soon as an operand is NaN,
    except [!=], which is then true. *)
Definition flt (x y : float) : bool := SFltb x y.
Definition fle (x y : float) : bool := SFleb x y.
Definition fgt (x y : float) : bool :=
  match SFcompare x y with Some Gt => true | _ => false end.
Definition fge (x y : float) : bool :=
  match SFcompare x y with Some (Gt | Eq) => true | _ => false end.
Definition feq (x y : float) : bool := SFeqb x y.
Definition fne (x y : float) : bool := negb (SFeqb x y).

Definition is_nan (x : float) : bool :=
  match x with S754_nan => true | _ => false end.

Definition is_finite (x : float) : bool :=
  match x with S754_zero _ | S754_finite _ _ _ => true | _ => false end.

Definition valid (x : float) : bool := SpecFloat.valid_binary prec emax x.

(** A Python [int] used where a float is expected. *)
Definition of_int (n : Z) : float := binary_normalize prec emax n 0 false.

Definition nan : float := S754_nan.
Definition pinf : float := S754_infinity false.
Definition ninf : float := S754_infinity true.

(** The exact value of a finite datum, [(-1)^s * m * 2^e]. *)
Definition F2Q (x : float) : Q :=
  match x with
  | S754_finite s m e => (inject_Z (cond_Zopp s (Zpos m)) * (2 ^ e))%Q
  | _ => 0%Q
  end.

(** The same value counted in units of the least positive datum of the
    format [(pr, em)]; an integer for every canonical datum. *)
Definition scaled (pr em : Z) (x : float) : Z :=
  match x with
  | S754_finite s m e => cond_Zopp s (Zpos m * 2 ^ (e - SpecFloat.emin pr em))
  | _ => 0
  end.

(** A finite value in the half-open interval [[lo, hi)], and a value of at
    least [lo] (plus infinity included). *)
Definition within (lo hi : Q) (x : float) : Prop :=
  is_finite x = true /\ (lo <= F2Q x)%Q /\ (F2Q x < hi)%Q.
Definition at_least (lo : Q) (x : float) : Prop :=
  x = pinf \/ (is_finite x = true /\ (lo <= F2Q x)%Q).

(** A finite value in the closed interval [[lo, hi]]. *)
Definition in_closed (lo hi : Q) (x : float) : Prop :=
  is_finite x = true /\ (lo <= F2Q x)%Q /\ (F2Q x <= hi)%Q.

(** [c] is a canonical finite datum of value [q]. *)
Definition has_value (c : float) (q : Q) : bool :=
  valid c && is_finite c && Qeq_bool (F2Q c) q.

(** The roundings the specification speaks of, on exact values: to the
    nearest integer with a tie going to the even neighbour, and with a tie
    going away from zero; and the clamp to an interval. *)
Definition Qround_half_even (q : Q) : Z :=
  let f := Qfloor q in
  match (q - inject_Z f ?= 1 # 2)%Q with
  | Lt => f
  | Gt => f + 1
  | Eq => if Z.even f then f else f + 1
  end.

Definition Qround_half_away (q : Q) : Z :=
  if Qle_bool 0 q then Qfloor (q + (1 # 2)) else Qceiling (q - (1 # 2)).

Definition clamp (n lo hi : Z) : Z := Z.max lo (Z.min n hi).

(** The sign a datum carries, if it is not NaN. *)
Definition has_sign (s : bool) (x : float) : Prop :=
  match x with
  | S754_zero s' | S754_infinity s' | S754_finite s' _ _ => s' = s
  | S754_nan => False
  end.

(** Where the remainder [r] of a division by [2^k] lies in its interval:
    the location that the round and sticky bits of a shift encode. *)
Definition loc_of_rem (r k : Z) : location :=
  if r =? 0 then loc_Exact else loc_Inexact (2 * r ?= 2 ^ k).

(** The record holds [M] shifted right by [k] places. *)
Definition represents (M k : Z) (mrs : shr_record) : Prop :=
  shr_m mrs = M / 2 ^ k /\ loc_of_shr_record mrs = loc_of_rem (M mod 2 ^ k) k.

(** ** numpy, as far as the two scripts use it *)

Abbreviation grid A := (list (list A)) (only parsing).

Definition cell {A} (g : grid A) (i j : nat) : option A :=
  g !! i ≫= fun row => row !! j.

Definition shape {A} (g : grid A) : list nat := length <$> g.

Definition size {A} (g : grid A) : nat := length (concat g).

Definition amap {A B} (f : A -> B) (g : grid A) : grid B :=
  (fun row : list A => f <$> row) <$> g.

Definition azip {A B C} (f : A -> B -> C) (g : grid A) (h : grid B) : grid C :=
  zip_with (zip_with f) g h.

(** [np.zeros_like(a, dtype=np.uint8)] *)
Definition zeros_like {A} (a : grid A) : grid Z := amap (fun _ => 0) a.

(** [np.full(shape, v, dtype=np.uint8)] with the shape of [a] *)
Definition full_like {A} (a : grid A) (v : Z) : grid Z := amap (fun _ => v) a.

(** [a[mask] = v] *)
Definition assign_where (mask : grid bool) (v : Z) (a : grid Z) : grid Z :=
  azip (fun (b : bool) x => if b then v else x) mask a.

(** [np.where(c, x, y)] *)
Definition np_where {A} (c : grid bool) (x y : grid A) : grid A :=
  azip (fun (b : bool) (xy : A * A) => if b then xy.1 else xy.2) c (azip pair x y).

Definition np_and : grid bool -> grid bool -> grid bool := azip andb.
Definition np_or : grid bool -> grid bool -> grid bool := azip orb.

(** [np.clip] on a float: NaN is kept, then [max] with the lower and [min]
    with the upper bound, each by one comparison. *)
Definition clip (x lo hi : float) : float :=
  let y := if is_nan x then x else if fgt x lo then x else lo in
  if is_nan y then y else if flt y hi then y else hi.

(** [np.clip] on a [uint8] *)
Definition clip_u8 (x lo hi : Z) : Z := Z.min (Z.max x lo) hi.

(** [np.round] with no decimals is [rint]: the nearest integral value,
    a tie going to the even one.  The discarded bits are shifted out with
    the round and sticky bits of the arithmetic itself. *)
Definition rint_mag (m : positive) (e : Z) : Z :=
  let '(mrs, _) := shr (shr_record_of_loc (Zpos m) loc_Exact) e (- e) in
  round_nearest_even (shr_m mrs) (loc_of_shr_record mrs).

Definition np_round (x : float) : float :=
  match x with
  | S754_finite s m e =>
      if 0 <=? e then x
      else match rint_mag m e with
           | Zpos n => binary_round prec emax s n 0
           | _ => S754_zero s
           end
  | _ => x
  end.

(** The way the C library computes [rint] for a magnitude below 2^52:
    adding and then subtracting 2^52 lets the addition do the rounding. *)
Definition TWO52 : float := S754_finite false 4503599627370496 0.
Definition rint_two52 (x : float) : float := fsub (fadd x TWO52) TWO52.

(** The integer part of a float, towards zero. *)
Definition trunc (x : float) : Z :=
  match x with
  | S754_finite s m e => cond_Zopp s (Z.shiftl (Zpos m) e)
  | _ => 0
  end.

(** [.astype(np.uint8)] of a float64: exact on 0..255.  Outside that range
    C leaves the conversion undefined; the usual x86-64 result (low byte of
    the truncated value, 0 for NaN and infinities) is taken. *)
Definition astype_uint8 (x : float) : Z := trunc x mod 256.

(** [.astype(np.float32)] of a float64: the value is rounded to binary32.
    A [float32] is held here as the double of the same value (every
    binary32 value is a binary64 value, and numpy compares, converts and
    prints the two alike), so the result is written back in binary64. *)
Definition widen (x : float) : float :=
  match x with
  | S754_finite s m e => binary_round prec emax s m e
  | _ => x
  end.

Definition astype_float32 (x : float) : float :=
  match x with
  | S754_finite s m e => widen (binary_round 24 128 s m e)
  | _ => x
  end.

Inductive exn := ValueError.

Inductive result (A : Type) : Type :=
  | Raised (e : exn)
  | Returned (a : A).
Arguments Raised {A} e.
Arguments Returned {A} a.

Definition bind {A B} (r : result A) (k : A -> result B) : result B :=
  match r with Raised e => Raised e | Returned a => k a end.

Notation "x <- r ;; k" := (bind r (fun x => k))
  (at level 100, r at next level, right associativity).

(** [np.fmin] / [np.fmax]: a NaN operand is ignored. *)
Definition fmin (a b : float) : float :=
  if is_nan a then b else if is_nan b then a else if flt b a then b else a.
Definition fmax (a b : float) : float :=
  if is_nan a then b else if is_nan b then a else if flt a b then b else a.

(** [np.nanmin] / [np.nanmax]: a reduction with no identity, so a
    zero-size array raises [ValueError]. *)
Definition reduce (f : float -> float -> float) (a : grid float) : result float :=
  match concat a with
  | [] => Raised ValueError
  | x :: xs => Returned (fold_left f xs x)
  end.
Definition np_nanmin : grid float -> result float := reduce fmin.
Definition np_nanmax : grid float -> result float := reduce fmax.

(** Comparison of a float band with a Python [int]. *)
Definition lt_c (a : grid float) (c : Z) : grid bool := amap (fun x => flt x (of_int c)) a.
Definition ge_c (a : grid float) (c : Z) : grid bool := amap (fun x => fge x (of_int c)) a.
Definition eq_c (a : grid float) (c : Z) : grid bool := amap (fun x => feq x (of_int c)) a.
Definition ne_c (a : grid float) (c : Z) : grid bool := amap (fun x => fne x (of_int c)) a.
Definition np_isnan (a : grid float) : grid bool := amap is_nan a.

(** [np.sum(a == k)] and [a[a > 0].size] *)
Definition count_eq (a : grid Z) (k : Z) : Z :=
  Z.of_nat (length (filter (fun x => x = k) (concat a))).
Definition count_positive (a : grid Z) : Z :=
  Z.of_nat (length (filter (fun x => 0 < x) (concat a))).

(** Broadcasting of two-dimensional arrays: along each axis the lengths
    must agree or one of them be 1, and an axis of length 1 is repeated. *)
Definition np_dims {A} (a : grid A) : nat * nat :=
  (length a, length (default [] (head a))).

Definition rectangular {A} (a : grid A) : Prop :=
  Forall (fun row => length row = (np_dims a).2) a.

Definition broadcast_len (m n : nat) : option nat :=
  if (m =? n)%nat then Some m
  else if (m =? 1)%nat then Some n
  else if (n =? 1)%nat then Some m
  else None.

Definition broadcast_shape (s t : nat * nat) : option (nat * nat) :=
  match broadcast_len s.1 t.1, broadcast_len s.2 t.2 with
  | Some h, Some w => Some (h, w)
  | _, _ => None
  end.

Definition broadcast_to {A} (s : nat * nat) (a : grid A) : grid A :=
  let rows := match a with [row] => replicate s.1 row | _ => a end in
  (fun row : list A => match row with [x] => replicate s.2 x | _ => row end) <$> rows.

(** ** [build_risk_model.py] *)

Module build_risk_model.

Record weights := { w_slope : float; w_aspect : float; w_vegetation : float }.

(** [WEIGHTS = {'slope': 0.45, 'aspect': 0.25, 'vegetation': 0.30}], each
    literal being the double nearest to the decimal. *)
Definition WEIGHTS : weights :=
  {| w_slope := S754_finite false 8106479329266893 (-54);
     w_aspect := S754_finite false 4503599627370496 (-54);
     w_vegetation := S754_finite false 5404319552844595 (-54) |}.

Definition reclassify_slope (slope : grid float) : grid Z :=
  let slope_risk := zeros_like slope in
  let slope_risk := assign_where (lt_c slope 5) 1 slope_risk in
  let slope_risk := assign_where (np_and (ge_c slope 5) (lt_c slope 15)) 2 slope_risk in
  let slope_risk := assign_where (np_and (ge_c slope 15) (lt_c slope 25)) 3 slope_risk in
  let slope_risk := assign_where (np_and (ge_c slope 25) (lt_c slope 35)) 4 slope_risk in
  let slope_risk := assign_where (ge_c slope 35) 5 slope_risk in
  let slope_risk := assign_where (np_isnan slope) 0 slope_risk in
  slope_risk.

Definition reclassify_aspect (aspect : grid float) : grid Z :=
  let aspect_risk := zeros_like aspect in
  let aspect_risk := assign_where (eq_c aspect (-1)) 2 aspect_risk in
  let aspect_risk :=
    assign_where (np_and (np_or (ge_c aspect 315) (lt_c aspect 45)) (ne_c aspect (-1)))
                 2 aspect_risk in
  let aspect_risk := assign_where (np_and (ge_c aspect 45) (lt_c aspect 135)) 3 aspect_risk in
  let aspect_risk := assign_where (np_and (ge_c aspect 135) (lt_c aspect 225)) 5 aspect_risk in
  let aspect_risk := assign_where (np_and (ge_c aspect 225) (lt_c aspect 315)) 4 aspect_risk in
  let aspect_risk := assign_where (np_isnan aspect) 0 aspect_risk in
  aspect_risk.

(** The placeholder layer: level 3 on the shape of the reference raster. *)
Definition reclassify_vegetation {A} (reference : grid A) : grid Z :=
  full_like reference 3.

(** [w * risk] for a Python float [w] and a [uint8] band. *)
Definition scale (w : float) (risk : grid Z) : grid float :=
  amap (fun n => fmul w (of_int n)) risk.

Definition calculate_weighted_risk_with (W : weights)
    (slope_risk aspect_risk veg_risk : grid Z) : grid Z :=
  let weighted_risk :=
    azip fadd (azip fadd (scale (w_slope W) slope_risk)
                         (scale (w_aspect W) aspect_risk))
              (scale (w_vegetation W) veg_risk) in
  let final_risk := amap astype_uint8 (amap np_round weighted_risk) in
  let final_risk := amap (fun x => clip_u8 x 1 5) final_risk in
  let nodata_mask :=
    np_or (np_or (amap (Z.eqb 0) slope_risk) (amap (Z.eqb 0) aspect_risk))
          (amap (Z.eqb 0) veg_risk) in
  let final_risk := assign_where nodata_mask 0 final_risk in
  final_risk.

Definition calculate_weighted_risk : grid Z -> grid Z -> grid Z -> grid Z :=
  calculate_weighted_risk_with WEIGHTS.

(** What the array statements above do at one position. *)

Definition slope_risk_of (x : float) : Z :=
  let r := 0 in
  let r := if flt x (of_int 5) then 1 else r in
  let r := if fge x (of_int 5) && flt x (of_int 15) then 2 else r in
  let r := if fge x (of_int 15) && flt x (of_int 25) then 3 else r in
  let r := if fge x (of_int 25) && flt x (of_int 35) then 4 else r in
  let r := if fge x (of_int 35) then 5 else r in
  let r := if is_nan x then 0 else r in
  r.

Definition aspect_risk_of (x : float) : Z :=
  let r := 0 in
  let r := if feq x (of_int (-1)) then 2 else r in
  let r := if (fge x (of_int 315) || flt x (of_int 45)) && fne x (of_int (-1))
           then 2 else r in
  let r := if fge x (of_int 45) && flt x (of_int 135) then 3 else r in
  let r := if fge x (of_int 135) && flt x (of_int 225) then 5 else r in
  let r := if fge x (of_int 225) && flt x (of_int 315) then 4 else r in
  let r := if is_nan x then 0 else r in
  r.

Definition raw_of (W : weights) (s a v : Z) : float :=
  fadd (fadd (fmul (w_slope W) (of_int s)) (fmul (w_aspect W) (of_int a)))
       (fmul (w_vegetation W) (of_int v)).

Definition weighted_risk_of (W : weights) (s a v : Z) : Z :=
  let final := clip_u8 (astype_uint8 (np_round (raw_of W s a v))) 1 5 in
  if (0 =? s) || (0 =? a) || (0 =? v) then 0 else final.

(** The distribution a reclassifier prints: for each level 1..5 the number
    of cells at that level and its share, in percent, of all cells. *)
Definition risk_distribution (risk : grid Z) : list (Z * Z * float) :=
  (fun risk_level =>
     let count := count_eq risk risk_level in
     let pct := fmul (fdiv (of_int count) (of_int (Z.of_nat (size risk)))) (of_int 100) in
     (risk_level, count, pct)) <$> [1; 2; 3; 4; 5].

(** The distribution the overlay prints: the share is taken of the cells
    above 0, and is 0 when there is none. *)
Definition final_distribution (final_risk : grid Z) : list (Z * Z * float) :=
  (fun risk_level =>
     let count := count_eq final_risk risk_level in
     let pct :=
       if 0 <? count_positive final_risk
       then fmul (fdiv (of_int count) (of_int (count_positive final_risk))) (of_int 100)
       else of_int 0 in
     (risk_level, count, pct)) <$> [1; 2; 3; 4; 5].

(** The overlay on layers of any shapes: numpy broadcasts the three
    layers to a common shape, or raises [ValueError] when there is none;
    on the common shape every statement of [calculate_weighted_risk] is
    elementwise. *)
Definition broadcast_layers (slope_risk aspect_risk veg_risk : grid Z)
    : result (grid Z * grid Z * grid Z) :=
  match broadcast_shape (np_dims slope_risk) (np_dims aspect_risk) with
  | None => Raised ValueError
  | Some s =>
      match broadcast_shape s (np_dims veg_risk) with
      | None => Raised ValueError
      | Some s' =>
          Returned (broadcast_to s' slope_risk, broadcast_to s' aspect_risk,
                    broadcast_to s' veg_risk)
      end
  end.

(** [main]: the rasters it is handed to write, in order, and the exit
    status of the script.  Its two inputs are the bands of [slope.tif] and
    [aspect.tif], [None] for a file that does not exist; reading and
    writing an existing file are taken to succeed. *)
Inductive risk_file := slope_risk_tif | aspect_risk_tif | vegetation_risk_tif | fire_risk_tif.

Definition main (slope_tif aspect_tif : option (grid float))
    : Z * list (risk_file * grid Z) :=
  match slope_tif with
  | None => (1, [])
  | Some slope =>
      match aspect_tif with
      | None => (1, [])
      | Some aspect =>
          let slope_risk := reclassify_slope slope in
          let aspect_risk := reclassify_aspect aspect in
          let veg_risk := reclassify_vegetation slope in
          let written := [(slope_risk_tif, slope_risk); (aspect_risk_tif, aspect_risk);
                          (vegetation_risk_tif, veg_risk)] in
          match broadcast_layers slope_risk aspect_risk veg_risk with
          | Raised _ => (1, written)
          | Returned (s, a, v) =>
              (0, written ++ [(fire_risk_tif, calculate_weighted_risk s a v)])
          end
      end
  end.

End build_risk_model.

(** ** [scipy.ndimage.convolve], two-dimensional, default arguments *)

Module ndimage.

(** [DBL_EPSILON], 2^-52 *)
Definition DBL_EPSILON : float := S754_finite false 4503599627370496 (-104).

(** Index extension of mode ['reflect'] ([d c b a | a b c d | d c b a]):
    the case [NI_EXTEND_REFLECT] of the filter-offset initialisation, for
    an axis of length [len] and a coordinate [cc]. *)
Definition reflect (len cc : Z) : Z :=
  if cc <? 0 then
    if len <=? 1 then 0
    else
      let sz2 := 2 * len in
      let cc := if cc <? - sz2 then cc + sz2 * Z.quot (- cc) sz2 else cc in
      if cc <? - len then cc + sz2 else - cc - 1
  else if len <=? cc then
    if len <=? 1 then 0
    else
      let sz2 := 2 * len in
      let cc := cc - sz2 * Z.quot cc sz2 in
      if len <=? cc then sz2 - cc - 1 else cc
  else cc.

(** The kernel entries that take part, with their offsets from the
    centre, in row-major order.  The C routine builds its footprint from
    the weights whose magnitude exceeds [DBL_EPSILON]: an entry that is
    zero (or NaN) is dropped, and the input under it is never read. *)
Definition footprint (weights : grid float) : list (Z * Z * float) :=
  let ci := Z.of_nat (length weights / 2) in
  concat (imap (fun a row =>
    let cj := Z.of_nat (length row / 2) in
    omap (fun bw : nat * float =>
            if fgt (fabs bw.2) DBL_EPSILON
            then Some (Z.of_nat a - ci, Z.of_nat bw.1 - cj, bw.2) else None)
         (imap pair row)) weights).

Definition rows {A} (a : grid A) : Z := Z.of_nat (length a).
Definition cols {A} (a : grid A) : Z := Z.of_nat (length (default [] (head a))).

(** The input read for output position [(i,j)] at offset [(di,dj)]. *)
Definition read (input : grid float) (i j di dj : Z) : float :=
  default nan
    (cell input (Z.to_nat (reflect (rows input) (i + di)))
                (Z.to_nat (reflect (cols input) (j + dj)))).

(** One output value: the products are accumulated in a double, from 0. *)
Definition correlate_point (input : grid float) (fp : list (Z * Z * float))
    (i j : Z) : float :=
  fold_left (fun tmp '(di, dj, w) => fadd tmp (fmul w (read input i j di dj)))
            fp (S754_zero false).

Definition correlate (input weights : grid float) : grid float :=
  let fp := footprint weights in
  imap (fun i row =>
          imap (fun j _ => correlate_point input fp (Z.of_nat i) (Z.of_nat j)) row)
       input.

(** A convolution is the correlation with the kernel reversed along
    both axes (the origin of an odd-sized kernel stays at its centre). *)
Definition convolve (input weights : grid float) : grid float :=
  correlate input (reverse (reverse <$> weights)).

End ndimage.

(** ** [derive_terrain.py] *)

Module derive_terrain.

(** The two functions of the C mathematics library behind [np.arctan]
    and [np.arctan2]; they are not part of the arithmetic and stay a
    parameter of the engine. *)
Record libm := { arctan : float -> float; arctan2 : float -> float -> float }.

(** The double nearest to pi, the largest magnitude [atan2] returns. *)
Definition PI : float := S754_finite false 7074237752028440 (-51).

(** What the engine relies on (C99, Annex F.9): NaN in, NaN out, and
    nothing else gives NaN; a result of [atan2] is a double of magnitude
    at most [PI]. *)
Record libm_ok (L : libm) : Prop := {
  arctan_nan : forall x, is_nan (arctan L x) = is_nan x;
  arctan_valid : forall x, valid (arctan L x) = true;
  arctan2_nan : forall y x, is_nan (arctan2 L y x) = is_nan y || is_nan x;
  arctan2_valid : forall y x, valid (arctan2 L y x) = true;
  arctan2_range : forall y x,
    is_nan (arctan2 L y x) = false -> fle (fabs (arctan2 L y x)) PI = true
}.

(** [np.degrees]: multiplication by the constant 180/pi. *)
Definition RAD2DEG : float := S754_finite false 8063664102031864 (-47).
Definition degrees (x : float) : float := fmul x RAD2DEG.

Definition horn_x : grid Z := [[-1; 0; 1]; [-2; 0; 2]; [-1; 0; 1]].
Definition horn_y : grid Z := [[1; 2; 1]; [0; 0; 0]; [-1; -2; -1]].

(** [np.array(k) / (8 * cell_size)] *)
Definition kernel (k : grid Z) (cell_size : float) : grid float :=
  amap (fun n => fdiv (of_int n) (fmul (of_int 8) cell_size)) k.

Definition square (x : float) : float := fmul x x.

(** A Python [int] broadcast to the shape of [a]. *)
Definition broadcast {A} (c : Z) (a : grid A) : grid float := amap (fun _ => of_int c) a.

Section Engine.
Variable L : libm.

Definition slope_degrees (dz_dx dz_dy : grid float) : grid float :=
  let slope_radians :=
    amap (arctan L) (amap fsqrt (azip fadd (amap square dz_dx) (amap square dz_dy))) in
  let slope_degrees := amap degrees slope_radians in
  amap (fun x => clip x (of_int 0) (of_int 90)) slope_degrees.

Definition aspect_degrees (dz_dx dz_dy slope_degrees : grid float) : grid float :=
  let aspect_radians := azip (arctan2 L) dz_dy (amap fneg dz_dx) in
  let aspect_degrees := amap degrees aspect_radians in
  let aspect_degrees := amap (fun x => fsub (of_int 90) x) aspect_degrees in
  let aspect_degrees :=
    np_where (lt_c aspect_degrees 0)
             (amap (fun x => fadd x (of_int 360)) aspect_degrees)
             aspect_degrees in
  np_where (lt_c slope_degrees 1) (broadcast (-1) aspect_degrees) aspect_degrees.

(** The function returns nothing; its result is what it writes, the
    slope band and the aspect band, both as [float32].  The band read
    from the DEM is taken to be [float64]; the exceptions are those the
    reductions inside the progress messages can raise ([np.nanmin] and
    [np.nanmax] on an empty array; [np.nanmean] returns NaN there and is
    left out). *)
Definition calculate_slope_aspect (dem : grid float) (cell_size : float)
    : result (grid float * grid float) :=
  _ <- np_nanmin dem ;;
  _ <- np_nanmax dem ;;
  let kernel_x := kernel horn_x cell_size in
  let kernel_y := kernel horn_y cell_size in
  let dz_dx := ndimage.convolve dem kernel_x in
  let dz_dy := ndimage.convolve dem kernel_y in
  let slope := slope_degrees dz_dx dz_dy in
  _ <- np_nanmin slope ;;
  _ <- np_nanmax slope ;;
  let aspect := aspect_degrees dz_dx dz_dy slope in
  _ <- np_nanmin aspect ;;
  _ <- np_nanmax aspect ;;
  Returned (amap astype_float32 slope, amap astype_float32 aspect).

(** The same statements at one position, from the two gradients. *)
Definition slope_of (dx dy : float) : float :=
  clip (degrees (arctan L (fsqrt (fadd (square dx) (square dy)))))
       (of_int 0) (of_int 90).

Definition bearing_of (dx dy : float) : float :=
  let a := fsub (of_int 90) (degrees (arctan2 L dy (fneg dx))) in
  if flt a (of_int 0) then fadd a (of_int 360) else a.

Definition aspect_of (dx dy : float) : float :=
  if flt (slope_of dx dy) (of_int 1) then of_int (-1) else bearing_of dx dy.

End Engine.

(** The gradients at a position of the DEM. *)
Definition dz_dx_at (dem : grid float) (cell_size : float) (i j : nat) : float :=
  ndimage.correlate_point dem
    (ndimage.footprint (reverse (reverse <$> kernel horn_x cell_size)))
    (Z.of_nat i) (Z.of_nat j).
Definition dz_dy_at (dem : grid float) (cell_size : float) (i j : nat) : float :=
  ndimage.correlate_point dem
    (ndimage.footprint (reverse (reverse <$> kernel horn_y cell_size)))
    (Z.of_nat i) (Z.of_nat j).

(** A stand-in for the library, exact on the axes and the diagonals and
    constant (the middle of the sixteenth of a turn) in between.  It obeys
    [libm_ok] and makes the engine executable on examples. *)
Definition sign_bit (x : float) : bool :=
  match x with
  | S754_zero s | S754_infinity s | S754_finite s _ _ => s
  | S754_nan => false
  end.
Definition with_sign (s : bool) (x : float) : float := if s then fneg x else x.

Definition PI_2 : float := S754_finite false 7074237752028440 (-52).
Definition PI_4 : float := S754_finite false 7074237752028440 (-53).
Definition PI_8 : float := S754_finite false 7074237752028440 (-54).
Definition PI_3_8 : float := S754_finite false 5305678314021330 (-52).
Definition PI_5_8 : float := S754_finite false 8842797190035550 (-52).
Definition PI_3_4 : float := S754_finite false 5305678314021330 (-51).
Definition PI_7_8 : float := S754_finite false 6189958033024885 (-51).

Definition sector_arctan2 (y x : float) : float :=
  if is_nan y || is_nan x then nan
  else
    let ay := fabs y in
    let ax := fabs x in
    let east := negb (sign_bit x) in
    let q :=
      if feq ay (S754_zero false) then (if east then S754_zero false else PI)
      else if feq ax (S754_zero false) then PI_2
      else if flt ay ax then (if east then PI_8 else PI_7_8)
      else if feq ay ax then (if east then PI_4 else PI_3_4)
      else (if east then PI_3_8 else PI_5_8) in
    with_sign (sign_bit y) q.

Definition sector_arctan (x : float) : float :=
  match x with
  | S754_zero _ => x
  | _ => sector_arctan2 x (of_int 1)
  end.

Definition sector_libm : libm :=
  {| arctan := sector_arctan; arctan2 := sector_arctan2 |}.

End derive_terrain.

(** ** [run_workflow.py] *)

Module run_workflow.

Inductive script := clip_and_reproject_py | derive_terrain_py | build_risk_model_py.

(** How [subprocess.run(..., check=True)] can end: the child returns a
    code (a non-zero one raises [CalledProcessError]), the call raises
    another [Exception] (the interpreter cannot be started, say), or the
    user interrupts it. *)
Inductive completed := Returncode (n : Z) | Error | KeyboardInterrupt.

(** The parsed command line. *)
Record namespace := { skip_clip : bool; skip_terrain : bool; skip_risk : bool }.

(** How [input()] can end. *)
Inductive line := Enter | EndOfFile | CtrlC.

Section Workflow.
Variable world : Type.
Variable subprocess_run : script -> world -> world * completed.

(** The state threaded through [main]: the world the scripts act on and
    the log of the scripts run so far, each with the way it ended. *)
Definition state : Type := world * list (script * completed).

(** [run_script]: [Some true] and [Some false] are its two return values,
    [None] is a [KeyboardInterrupt] passing through it. *)
Definition run_script (script_name : script) (st : state) : state * option bool :=
  let '(w, log) := st in
  let '(w', c) := subprocess_run script_name w in
  ((w', log ++ [(script_name, c)]),
   match c with
   | Returncode 0 => Some true
   | Returncode _ => Some false
   | Error => Some false
   | KeyboardInterrupt => None
   end).

(** One step of [main]: skipped, or run; a step that fails makes [main]
    return 1, and an interrupt ends the process with status 1 as well. *)
Definition step (skip : bool) (script_name : script) (st : state) (success_count : Z)
    (continue : state -> Z -> state * Z) : state * Z :=
  if skip then continue st success_count
  else
    let '(st', r) := run_script script_name st in
    match r with
    | Some true => continue st' (success_count + 1)
    | Some false => (st', 1)
    | None => (st', 1)
    end.

(** [main] under [sys.exit]: the final state and the exit status of the
    process.  Anything but Enter at the prompt ends it with status 1
    before a script is run. *)
Definition main (args : namespace) (key : line) (w : world) : state * Z :=
  match key with
  | Enter =>
      let success_count := 0 in
      let total_steps := 3 in
      step (skip_clip args) clip_and_reproject_py (w, []) success_count
        (fun st success_count =>
      step (skip_terrain args) derive_terrain_py st success_count
        (fun st success_count =>
      step (skip_risk args) build_risk_model_py st success_count
        (fun st success_count =>
      (st, if success_count =? total_steps then 0 else 1))))
  | EndOfFile | CtrlC => ((w, []), 1)
  end.

End Workflow.

(** The steps the command line leaves in, in the order of [main]. *)
Definition enabled (args : namespace) : list script :=
  (if skip_clip args then [] else [clip_and_reproject_py]) ++
  (if skip_terrain args then [] else [derive_terrain_py]) ++
  (if skip_risk args then [] else [build_risk_model_py]).

End run_workflow.

(** ** Sample rasters *)

(** A level 3 x 3 DEM at 100 m, and the same with a NoData cell in the
    middle. *)
Definition flat_dem : grid float :=
  [[of_int 100; of_int 100; of_int 100];
   [of_int 100; of_int 100; of_int 100];
   [of_int 100; of_int 100; of_int 100]].

Definition hole_dem : grid float :=
  [[of_int 100; of_int 100; of_int 100];
   [of_int 100; nan; of_int 100];
   [of_int 100; of_int 100; of_int 100]].

(** What the engine writes for [hole_dem] at a cell size of 10 (with any
    library obeying the laws): NaN around the hole, and a level, flat cell
    at the hole itself. *)
Definition hole_slope : grid float :=
  [[nan; nan; nan]; [nan; S754_zero false; nan]; [nan; nan; nan]].
Definition hole_aspect : grid float :=
  [[nan; nan; nan]; [nan; of_int (-1); nan]; [nan; nan; nan]].

(* ===================================================================== *)
(** * Part II: properties                                                  *)
(* ===================================================================== *)

(** ** Arrays, position by position *)

Section Arrays.
Context {A B C : Type}.

Lemma cell_amap (f : A -> B) (g : grid A) i j :
  cell (amap f g) i j = f <$> cell g i j.
Proof.
  unfold cell, amap. rewrite list_lookup_fmap.
  destruct (g !! i) as [row|]; simpl; [|done].
  by rewrite list_lookup_fmap.
Qed.

Lemma cell_azip (f : A -> B -> C) (g : grid A) (h : grid B) i j :
  cell (azip f g h) i j = x ← cell g i j; y ← cell h i j; Some (f x y).
Proof.
  unfold cell, azip. rewrite lookup_zip_with.
  destruct (g !! i) as [r1|]; simpl; [|done].
  destruct (h !! i) as [r2|]; simpl.
  - rewrite lookup_zip_with. done.
  - by destruct (r1 !! j).
Qed.

Lemma shape_amap (f : A -> B) (g : grid A) : shape (amap f g) = shape g.
Proof.
  unfold shape, amap. rewrite <- list_fmap_compose.
  apply list_fmap_ext. intros _ row _. simpl. by rewrite length_fmap.
Qed.
End Arrays.

Lemma zip_with_fmap_same {A B C D} (f : B -> C -> D) (a : A -> B) (b : A -> C)
    (l : list A) :
  zip_with f (a <$> l) (b <$> l) = (fun x => f (a x) (b x)) <$> l.
Proof. induction l as [|x l IH]; csimpl; [done|by f_equal]. Qed.

Lemma azip_amap {A B C D} (f : B -> C -> D) (a : A -> B) (b : A -> C) (g : grid A) :
  azip f (amap a g) (amap b g) = amap (fun x => f (a x) (b x)) g.
Proof.
  unfold azip, amap. rewrite zip_with_fmap_same.
  apply list_fmap_ext. intros _ row _. apply zip_with_fmap_same.
Qed.

Lemma amap_amap {A B C} (f : A -> B) (h : B -> C) (g : grid A) :
  amap h (amap f g) = amap (fun x => h (f x)) g.
Proof.
  unfold amap. rewrite <- list_fmap_compose.
  apply list_fmap_ext. intros _ row _. simpl. by rewrite <- list_fmap_compose.
Qed.

Lemma amap_ext {A B} (f h : A -> B) (g : grid A) :
  (forall x, f x = h x) -> amap f g = amap h g.
Proof.
  intros E. unfold amap. apply list_fmap_ext. intros _ row _.
  apply list_fmap_ext. intros _ x _. apply E.
Qed.

Lemma cell_np_where {A} (c : grid bool) (x y : grid A) i j :
  cell (np_where c x y) i j =
    b ← cell c i j; u ← cell x i j; v ← cell y i j; Some (if b : bool then u else v).
Proof.
  unfold np_where. rewrite !cell_azip.
  destruct (cell c i j), (cell x i j), (cell y i j); done.
Qed.

(** The two reclassifiers are position-wise maps. *)
Lemma reclassify_slope_amap (slope : grid float) :
  build_risk_model.reclassify_slope slope = amap build_risk_model.slope_risk_of slope.
Proof.
  unfold build_risk_model.reclassify_slope, assign_where, np_and, np_or,
         zeros_like, lt_c, ge_c, np_isnan.
  repeat rewrite !azip_amap. done.
Qed.

Lemma reclassify_aspect_amap (aspect : grid float) :
  build_risk_model.reclassify_aspect aspect = amap build_risk_model.aspect_risk_of aspect.
Proof.
  unfold build_risk_model.reclassify_aspect, assign_where, np_and, np_or,
         zeros_like, lt_c, ge_c, eq_c, ne_c, np_isnan.
  repeat rewrite !azip_amap. done.
Qed.

Lemma cell_calculate_weighted_risk_with W (s a v : grid Z) i j :
  cell (build_risk_model.calculate_weighted_risk_with W s a v) i j =
    x ← cell s i j; y ← cell a i j; z ← cell v i j;
    Some (build_risk_model.weighted_risk_of W x y z).
Proof.
  unfold build_risk_model.calculate_weighted_risk_with, assign_where, np_or,
         build_risk_model.scale.
  repeat (rewrite ?cell_azip, ?cell_amap).
  destruct (cell s i j) as [x|]; simpl; [|done].
  destruct (cell a i j) as [y|]; simpl; [|done].
  destruct (cell v i j) as [z|]; simpl; [|done].
  reflexivity.
Qed.

(** ** The order of floating-point data *)

Lemma digits2_pos_bounds m :
  2 ^ (Zpos (digits2_pos m) - 1) <= Zpos m < 2 ^ Zpos (digits2_pos m).
Proof.
  induction m as [p IH|p IH|]; simpl digits2_pos.
  - rewrite Pos2Z.inj_succ, (Pos2Z.inj_xI p).
    replace (Z.succ (Zpos (digits2_pos p)) - 1) with (Z.succ (Zpos (digits2_pos p) - 1)) by lia.
    rewrite !Z.pow_succ_r by lia.
    revert IH. generalize (2 ^ (Zpos (digits2_pos p) - 1)) (2 ^ Zpos (digits2_pos p)). lia.
  - rewrite Pos2Z.inj_succ, (Pos2Z.inj_xO p).
    replace (Z.succ (Zpos (digits2_pos p)) - 1) with (Z.succ (Zpos (digits2_pos p) - 1)) by lia.
    rewrite !Z.pow_succ_r by lia.
    revert IH. generalize (2 ^ (Zpos (digits2_pos p) - 1)) (2 ^ Zpos (digits2_pos p)). lia.
  - simpl. lia.
Qed.

Section Format.
Variables pr em : Z.
Hypothesis pr_pos : 0 < pr.

Local Abbreviation emn := (SpecFloat.emin pr em).

Lemma valid_finite_inv s m e :
  SpecFloat.valid_binary pr em (S754_finite s m e) = true ->
  emn <= e <= em - pr /\ Zpos m < 2 ^ pr /\ (emn < e -> 2 ^ (pr - 1) <= Zpos m).
Proof.
  unfold SpecFloat.valid_binary, bounded, canonical_mantissa, fexp.
  intros H. apply andb_prop in H as [H1 H2].
  apply Z.eqb_eq in H1. apply Z.leb_le in H2.
  pose proof (digits2_pos_bounds m) as [Hlo Hhi].
  set (d := Zpos (digits2_pos m)) in *.
  assert (d <= pr) by lia.
  split; [lia|]. split.
  - eapply Z.lt_le_trans; [exact Hhi|]. apply Z.pow_le_mono_r; lia.
  - intros He. assert (d = pr) by lia. subst pr. exact Hlo.
Qed.

Lemma scaled_pos m e :
  SpecFloat.valid_binary pr em (S754_finite false m e) = true ->
  0 < Zpos m * 2 ^ (e - emn).
Proof.
  intros H. apply valid_finite_inv in H as (He & _).
  apply Z.mul_pos_pos; [lia|]. apply Z.pow_pos_nonneg; lia.
Qed.

(** Mantissa and exponent of canonical data order like the values. *)
Lemma scaled_lt_exp m1 e1 m2 e2 :
  SpecFloat.valid_binary pr em (S754_finite false m1 e1) = true ->
  SpecFloat.valid_binary pr em (S754_finite false m2 e2) = true ->
  e1 < e2 -> Zpos m1 * 2 ^ (e1 - emn) < Zpos m2 * 2 ^ (e2 - emn).
Proof.
  intros H1 H2 He.
  apply valid_finite_inv in H1 as (He1 & Hm1 & _).
  apply valid_finite_inv in H2 as (He2 & _ & Hm2).
  specialize (Hm2 ltac:(lia)).
  assert (0 < 2 ^ (e1 - emn)) as P1 by (apply Z.pow_pos_nonneg; lia).
  assert (2 ^ (e2 - emn) = 2 ^ (e2 - e1 - 1) * 2 * 2 ^ (e1 - emn)) as E.
  { rewrite <- (Z.pow_1_r 2) at 3. rewrite <- !Z.pow_add_r by lia. f_equal. lia. }
  assert (2 ^ pr = 2 * 2 ^ (pr - 1)) as Ep.
  { rewrite <- (Z.pow_succ_r 2) by lia. f_equal. lia. }
  assert (0 < 2 ^ (e2 - e1 - 1)) as P2 by (apply Z.pow_pos_nonneg; lia).
  rewrite E. nia.
Qed.

Lemma compare_scaled x y :
  SpecFloat.valid_binary pr em x = true -> SpecFloat.valid_binary pr em y = true ->
  is_finite x = true -> is_finite y = true ->
  SFcompare x y = Some (scaled pr em x ?= scaled pr em y).
Proof.
  intros Vx Vy Fx Fy.
  destruct x as [sx|sx| |sx mx ex], y as [sy|sy| |sy my ey]; try discriminate; cbn [SFcompare scaled].
  - done.
  - f_equal. symmetry. pose proof (scaled_pos my ey Vy).
    destruct sy; cbn [cond_Zopp]; [apply Z.compare_gt_iff|apply Z.compare_lt_iff]; lia.
  - f_equal. symmetry. pose proof (scaled_pos mx ex Vx).
    destruct sx; cbn [cond_Zopp]; [apply Z.compare_lt_iff|apply Z.compare_gt_iff]; lia.
  - f_equal. pose proof (scaled_pos mx ex Vx). pose proof (scaled_pos my ey Vy).
    assert (SpecFloat.valid_binary pr em (S754_finite false mx ex) = true) as Vx' by exact Vx.
    assert (SpecFloat.valid_binary pr em (S754_finite false my ey) = true) as Vy' by exact Vy.
    apply valid_finite_inv in Vx as (Hex & _). apply valid_finite_inv in Vy as (Hey & _).
    assert (0 < 2 ^ (ex - emn)) as Px by (apply Z.pow_pos_nonneg; lia).
    destruct sx, sy; cbn [cond_Zopp]; symmetry.
    + destruct (Z.compare_spec ex ey) as [E|L|G].
      * subst ey. change (Pos.compare_cont Eq mx my) with (Pos.compare mx my).
        destruct (Pos.compare_spec mx my); cbn [CompOpp];
          [apply Z.compare_eq_iff|apply Z.compare_gt_iff|apply Z.compare_lt_iff]; nia.
      * apply Z.compare_gt_iff. pose proof (scaled_lt_exp _ _ _ _ Vx' Vy' L). lia.
      * apply Z.compare_lt_iff. pose proof (scaled_lt_exp _ _ _ _ Vy' Vx' ltac:(lia)). lia.
    + apply Z.compare_lt_iff. lia.
    + apply Z.compare_gt_iff. lia.
    + destruct (Z.compare_spec ex ey) as [E|L|G].
      * subst ey. change (Pos.compare_cont Eq mx my) with (Pos.compare mx my).
        destruct (Pos.compare_spec mx my);
          [apply Z.compare_eq_iff|apply Z.compare_lt_iff|apply Z.compare_gt_iff]; nia.
      * apply Z.compare_lt_iff. exact (scaled_lt_exp _ _ _ _ Vx' Vy' L).
      * apply Z.compare_gt_iff. pose proof (scaled_lt_exp _ _ _ _ Vy' Vx' ltac:(lia)). lia.
Qed.

Lemma F2Q_scaled x :
  SpecFloat.valid_binary pr em x = true ->
  (F2Q x == inject_Z (scaled pr em x) * 2 ^ emn)%Q.
Proof.
  destruct x as [s|s| |s m e]; intros V; cbn [F2Q scaled];
    try (rewrite Qmult_0_l; reflexivity).
  apply valid_finite_inv in V as (He & _).
  assert (inject_Z (cond_Zopp s (Zpos m * 2 ^ (e - emn)))
          == inject_Z (cond_Zopp s (Zpos m)) * 2 ^ (e - emn))%Q as ->.
  { destruct s; cbn [cond_Zopp];
      rewrite ?inject_Z_opp, inject_Z_mult, Zpower_Qpower by lia;
      change (inject_Z 2) with 2%Q; generalize (2 ^ (e - emn))%Q; intros; ring. }
  rewrite <- Qmult_assoc, <- Qpower_plus by discriminate.
  replace (e - emn + emn) with e by lia. reflexivity.
Qed.

(** On canonical finite data the comparison is that of the values. *)
Lemma compare_F2Q x y :
  SpecFloat.valid_binary pr em x = true -> SpecFloat.valid_binary pr em y = true ->
  is_finite x = true -> is_finite y = true ->
  SFcompare x y = Some (F2Q x ?= F2Q y)%Q.
Proof.
  intros Vx Vy Fx Fy. rewrite compare_scaled by assumption. f_equal.
  rewrite (Qcompare_comp _ _ (F2Q_scaled x Vx) _ _ (F2Q_scaled y Vy)).
  assert (0 < 2 ^ emn)%Q as P by (apply Qpower_0_lt; reflexivity).
  symmetry. destruct (Z.compare_spec (scaled pr em x) (scaled pr em y)) as [E|L|G].
  - apply Qeq_alt. rewrite E. reflexivity.
  - apply Qlt_alt. apply Qmult_lt_r; [exact P|]. rewrite <- Zlt_Qlt. exact L.
  - apply Qgt_alt. apply Qmult_lt_r; [exact P|]. rewrite <- Zlt_Qlt. exact G.
Qed.
End Format.

(** ** Rounding never invents a NaN *)

Lemma iter_pos_invariant {A} (P : A -> Prop) (f : A -> A) :
  (forall x, P x -> P (f x)) -> forall p x, P x -> P (SpecFloat.iter_pos f p x).
Proof.
  intros Hf p. induction p as [p IH|p IH|]; intros x Hx; simpl; auto.
Qed.

Lemma shr_1_nonneg mrs : 0 <= shr_m mrs -> 0 <= shr_m (shr_1 mrs).
Proof.
  destruct mrs as [m r s]. simpl.
  destruct m as [|[p|p|]|p]; simpl; lia.
Qed.

Lemma shr_nonneg mrs e n : 0 <= shr_m mrs -> 0 <= shr_m (fst (shr mrs e n)).
Proof.
  intros H. unfold shr. destruct n; simpl; try done.
  by apply iter_pos_invariant; [apply shr_1_nonneg|].
Qed.

Lemma shr_record_of_loc_m m l : shr_m (shr_record_of_loc m l) = m.
Proof. by destruct l as [|[]]. Qed.

Lemma round_nearest_even_nonneg m l : 0 <= m -> 0 <= round_nearest_even m l.
Proof. intros. unfold round_nearest_even. destruct l as [|[]]; try destruct (Z.even m); lia. Qed.

Section Sign.
Variables pr em : Z.

Lemma binary_round_aux_sign s m e l :
  0 <= m -> has_sign s (binary_round_aux pr em s m e l).
Proof.
  intros Hm. unfold binary_round_aux, shr_fexp.
  destruct (shr (shr_record_of_loc m l) e _) as [mrs' e'] eqn:E1.
  destruct (shr (shr_record_of_loc _ loc_Exact) e' _) as [mrs'' e''] eqn:E2.
  assert (0 <= shr_m mrs') as H1.
  { replace mrs' with (fst (shr (shr_record_of_loc m l) e
       (fexp pr em (Zdigits2 m + e) - e))) by (by rewrite E1).
    apply shr_nonneg. by rewrite shr_record_of_loc_m. }
  assert (0 <= shr_m mrs'') as H2.
  { match type of E2 with shr ?r ?a ?b = _ =>
      replace mrs'' with (fst (shr r a b)) by (by rewrite E2) end.
    apply shr_nonneg. rewrite shr_record_of_loc_m.
    by apply round_nearest_even_nonneg. }
  destruct (shr_m mrs'') as [|p|p]; simpl; [done| |lia].
  by destruct (e'' <=? em - pr).
Qed.

Lemma binary_round_sign s m e : has_sign s (binary_round pr em s m e).
Proof.
  unfold binary_round. destruct (shl_align _ _ _) as [mz ez].
  by apply binary_round_aux_sign.
Qed.

Lemma has_sign_not_nan s x : has_sign s x -> is_nan x = false.
Proof. by destruct x. Qed.

(** A product with a finite non-zero factor is NaN only for a NaN. *)
Lemma SFmul_finite_nan x s m e :
  is_nan (SFmul pr em x (S754_finite s m e)) = is_nan x.
Proof.
  destruct x as [sx|sx| |sx mx ex]; cbn [SFmul]; try reflexivity.
  apply (has_sign_not_nan (xorb sx s)). apply binary_round_aux_sign. lia.
Qed.

Lemma SFmul_nan_l x y : is_nan x = true -> is_nan (SFmul pr em x y) = true.
Proof. destruct x; try discriminate. done. Qed.
Lemma SFmul_nan_r x y : is_nan y = true -> is_nan (SFmul pr em x y) = true.
Proof. destruct y; try discriminate. by destruct x. Qed.

(** A square is NaN only for NaN, and never negative. *)
Lemma SFmul_square x :
  is_nan x = false -> has_sign false (SFmul pr em x x).
Proof.
  destruct x as [s|s| |s m e]; cbn [SFmul is_nan has_sign]; try discriminate; intros _;
    try by destruct s.
  replace (xorb s s) with false by (by destruct s).
  apply binary_round_aux_sign. lia.
Qed.

Lemma binary_normalize_pos m e : 0 < m -> has_sign false (binary_normalize pr em m e false).
Proof.
  intros H. destruct m; try lia. simpl. apply binary_round_sign.
Qed.

Lemma shl_align_pos mx ex ez : 0 < Zpos (fst (shl_align mx ex ez)).
Proof. lia. Qed.

(** The sum of two data that are not negative is not negative (and not NaN). *)
Lemma SFadd_nonneg x y :
  has_sign false x -> has_sign false y -> has_sign false (SFadd pr em x y).
Proof.
  destruct x as [sx|sx| |sx mx ex], y as [sy|sy| |sy my ey]; cbn [SFadd has_sign]; try done;
    intros -> ->; try done.
  apply binary_normalize_pos. cbn [cond_Zopp]. lia.
Qed.

Lemma SFadd_nan_l x y : is_nan x = true -> is_nan (SFadd pr em x y) = true.
Proof. destruct x; try discriminate. done. Qed.
Lemma SFadd_nan_r x y : is_nan y = true -> is_nan (SFadd pr em x y) = true.
Proof. destruct y; try discriminate. by destruct x. Qed.
Lemma SFsub_nan_r x y : is_nan y = true -> is_nan (SFsub pr em x y) = true.
Proof. destruct y; try discriminate. by destruct x. Qed.

Lemma SFsqrt_nonneg x : has_sign false x -> has_sign false (SFsqrt pr em x).
Proof.
  destruct x as [s|s| |s m e]; cbn [SFsqrt has_sign]; try done; intros ->; try done.
  destruct (SFsqrt_core_binary pr em (Zpos m) e) as [[mz ez] lz] eqn:E.
  apply binary_round_aux_sign.
  unfold SFsqrt_core_binary in E.
  destruct (Z.sqrtrem _) as [q r] eqn:Es. injection E as <- _ _.
  match type of Es with Z.sqrtrem ?a = _ => pose proof (Z.sqrtrem_spec a) as S end.
  rewrite Es in S.
  match type of Es with Z.sqrtrem ?a = _ => assert (0 <= a) as Ha end.
  { destruct (e - 2 * _); try lia. apply Z.shiftl_nonneg. lia. }
  specialize (S Ha). lia.
Qed.

Lemma SFsqrt_nan x : is_nan x = true -> is_nan (SFsqrt pr em x) = true.
Proof. destruct x; try discriminate. done. Qed.
End Sign.

(** ** Digits *)

Lemma Zdigits2_bounds a :
  0 < a -> 2 ^ (Zdigits2 a - 1) <= a < 2 ^ Zdigits2 a.
Proof. destruct a; try lia. intros _. apply digits2_pos_bounds. Qed.

Lemma Zdigits2_pos a : 0 < a -> 0 < Zdigits2 a.
Proof. destruct a; simpl; lia. Qed.

Lemma Zdigits2_unique a k : 2 ^ (k - 1) <= a < 2 ^ k -> 0 < a -> Zdigits2 a = k.
Proof.
  intros [Hlo Hhi] Ha. pose proof (Zdigits2_bounds a Ha) as [Dlo Dhi].
  pose proof (Zdigits2_pos a Ha) as Dp.
  assert (0 < k) as Hk.
  { destruct (Z_lt_le_dec 0 k); [done|]. 
    assert (2 ^ k <= 1); [|lia].
    destruct (Z.eq_dec k 0) as [->|]; [simpl; lia|]. rewrite Z.pow_neg_r by lia. lia. }
  assert (k - 1 < Zdigits2 a).
  { apply (Z.pow_lt_mono_r_iff 2); lia. }
  assert (Zdigits2 a - 1 < k).
  { apply (Z.pow_lt_mono_r_iff 2); lia. }
  lia.
Qed.

Lemma Zdigits2_le a k : 0 < a -> 0 <= k -> a < 2 ^ k -> Zdigits2 a <= k.
Proof.
  intros Ha Hk H. pose proof (Zdigits2_bounds a Ha) as [Dlo _].
  assert (Zdigits2 a - 1 < k); [|lia]. apply (Z.pow_lt_mono_r_iff 2); lia.
Qed.

Lemma Zdigits2_ge a k : 0 <= k -> 2 ^ k <= a -> k < Zdigits2 a.
Proof.
  intros Hk H. assert (0 < a) as Ha by (pose proof (Z.pow_pos_nonneg 2 k); lia).
  pose proof (Zdigits2_bounds a Ha) as [_ Dhi]. pose proof (Zdigits2_pos a Ha).
  apply (Z.pow_lt_mono_r_iff 2); lia.
Qed.

Lemma Zdigits2_mono a b : 0 < a -> a <= b -> Zdigits2 a <= Zdigits2 b.
Proof.
  intros Ha Hab. pose proof (Zdigits2_bounds b ltac:(lia)) as [_ Dhi].
  pose proof (Zdigits2_pos b ltac:(lia)).
  apply Zdigits2_le; lia.
Qed.

Lemma Zdigits2_mul_pow2 a k : 0 < a -> 0 <= k -> Zdigits2 (a * 2 ^ k) = Zdigits2 a + k.
Proof.
  intros Ha Hk. pose proof (Zdigits2_bounds a Ha) as [Dlo Dhi].
  pose proof (Zdigits2_pos a Ha). pose proof (Z.pow_pos_nonneg 2 k ltac:(lia) Hk).
  apply Zdigits2_unique; [|nia].
  replace (Zdigits2 a + k - 1) with (Zdigits2 a - 1 + k) by lia.
  rewrite !Z.pow_add_r by lia. nia.
Qed.

Lemma Zdigits2_div_pow2 a k :
  0 <= k -> 0 < a / 2 ^ k -> Zdigits2 (a / 2 ^ k) = Zdigits2 a - k.
Proof.
  intros Hk Hq. pose proof (Z.pow_pos_nonneg 2 k ltac:(lia) Hk) as Pk.
  assert (0 < a) as Ha.
  { destruct (Z_lt_le_dec 0 a); [done|]. 
    assert (a / 2 ^ k <= 0); [|lia]. apply Z.div_le_upper_bound; lia. }
  pose proof (Zdigits2_bounds a Ha) as [Dlo Dhi]. pose proof (Zdigits2_pos a Ha).
  assert (k < Zdigits2 a) as Hkd.
  { apply Zdigits2_ge; [done|]. 
    destruct (Z_lt_le_dec a (2 ^ k)); [|done]. rewrite Z.div_small in Hq by lia. lia. }
  apply Zdigits2_unique; [|done]. split.
  - apply Z.div_le_lower_bound; [done|].
    rewrite <- Z.pow_add_r by lia. replace (k + (Zdigits2 a - k - 1)) with (Zdigits2 a - 1) by lia.
    done.
  - apply Z.div_lt_upper_bound; [done|].
    rewrite <- Z.pow_add_r by lia. replace (k + (Zdigits2 a - k)) with (Zdigits2 a) by lia.
    done.
Qed.

(** ** Shifting out low bits *)

Lemma represents_0 M : represents M 0 (shr_record_of_loc M loc_Exact).
Proof.
  split; simpl; [by rewrite Z.div_1_r|]. by rewrite Z.mod_1_r.
Qed.

Lemma represents_step M k mrs :
  0 <= M -> 0 <= k -> represents M k mrs -> represents M (k + 1) (shr_1 mrs).
Proof.
  intros HM Hk [Hm Hl].
  pose proof (Z.pow_pos_nonneg 2 k ltac:(lia) Hk) as Pk.
  pose proof (Z.mod_pos_bound M (2 ^ k) Pk) as HR.
  pose proof (Z.div_mod M (2 ^ k) ltac:(lia)) as HD.
  set (R := M mod 2 ^ k) in *. set (P := 2 ^ k) in *.
  assert (Hs : orb (shr_r mrs) (shr_s mrs) = negb (R =? 0)).
  { unfold loc_of_rem in Hl. destruct mrs as [m [] []]; simpl in *;
      destruct (Z.eqb_spec R 0); try done; destruct (2 * R ?= P); done. }
  assert (exists m2 b, shr_m mrs = 2 * m2 + Z.b2z b /\
            shr_1 mrs = Build_shr_record m2 b (orb (shr_r mrs) (shr_s mrs))) as (m2 & b & Em & E1).
  { assert (0 <= shr_m mrs) as Hnn.
    { rewrite Hm. apply Z.div_pos; lia. }
    destruct mrs as [m r s]. simpl in *. 
    destruct m as [|[p|p|]|p]; try lia.
    - by exists 0, false.
    - by exists (Zpos p), true.
    - by exists (Zpos p), false.
    - by exists 0, true. }
  rewrite E1, Hs. rewrite Hm in Em.
  assert (2 ^ (k + 1) = 2 * P) as EP.
  { rewrite Z.pow_add_r by lia. unfold P. lia. }
  assert (M = 2 * P * m2 + (Z.b2z b * P + R)) as EM by nia.
  assert (0 <= Z.b2z b * P + R < 2 * P) as HB by (destruct b; simpl; lia).
  assert (M / 2 ^ (k + 1) = m2) as Ed.
  { rewrite EP. symmetry. apply (Z.div_unique_pos _ _ _ (Z.b2z b * P + R)); lia. }
  assert (M mod 2 ^ (k + 1) = Z.b2z b * P + R) as Er.
  { rewrite EP. symmetry. apply (Z.mod_unique_pos _ _ m2); lia. }
  unfold represents. rewrite Ed, Er.
  split; [done|]. unfold loc_of_rem. rewrite EP.
  destruct b, (Z.eqb_spec R 0) as [E0|N0]; simpl Z.b2z; simpl negb; cbn [loc_of_shr_record].
  - rewrite E0. destruct (Z.eqb_spec (1 * P + 0) 0); [lia|].
    f_equal. symmetry. apply Z.compare_eq_iff. lia.
  - destruct (Z.eqb_spec (1 * P + R) 0); [lia|].
    f_equal. symmetry. apply Z.compare_gt_iff. lia.
  - rewrite E0. done.
  - destruct (Z.eqb_spec (0 * P + R) 0); [lia|].
    f_equal. symmetry. apply Z.compare_lt_iff. lia.
Qed.

Lemma represents_iter M : 0 <= M ->
  forall p k mrs, 0 <= k -> represents M k mrs ->
  represents M (k + Zpos p) (SpecFloat.iter_pos shr_1 p mrs).
Proof.
  intros HM p. induction p as [p IH|p IH|]; intros k mrs Hk H; simpl.
  - replace (k + Zpos p~1) with (k + 1 + Zpos p + Zpos p) by lia.
    apply IH; [lia|]. apply IH; [lia|]. by apply represents_step.
  - replace (k + Zpos p~0) with (k + Zpos p + Zpos p) by lia.
    apply IH; [lia|]. by apply IH.
  - by apply represents_step.
Qed.

(** [shr] from an exact record: [n] places if [n] is positive, none otherwise. *)
Lemma shr_represents M e n :
  0 <= M ->
  represents M (Z.max n 0) (fst (shr (shr_record_of_loc M loc_Exact) e n)) /\
  snd (shr (shr_record_of_loc M loc_Exact) e n) = e + Z.max n 0.
Proof.
  intros HM. unfold shr. destruct n as [|p|p]; simpl fst; simpl snd.
  - split; [apply represents_0|lia].
  - split; [|lia]. replace (Z.max (Zpos p) 0) with (0 + Zpos p) by lia.
    apply represents_iter; [done..|apply represents_0].
  - split; [apply represents_0|lia].
Qed.

(** Rounding to nearest, ties to even, of a shifted integer. *)
Lemma round_nearest_even_represents M k mrs :
  0 <= M -> 0 <= k -> represents M k mrs ->
  let m1 := round_nearest_even (shr_m mrs) (loc_of_shr_record mrs) in
  M / 2 ^ k <= m1 <= M / 2 ^ k + 1 /\
  (M mod 2 ^ k = 0 -> m1 = M / 2 ^ k) /\
  (2 * (M mod 2 ^ k) = 2 ^ k -> m1 = if Z.even (M / 2 ^ k) then M / 2 ^ k else M / 2 ^ k + 1).
Proof.
  intros HM Hk [Hm Hl]. cbn zeta. rewrite Hm, Hl. unfold loc_of_rem, round_nearest_even.
  destruct (Z.eqb_spec (M mod 2 ^ k) 0) as [E|N].
  - pose proof (Z.pow_pos_nonneg 2 k ltac:(lia) Hk). repeat split; lia.
  - destruct (Z.compare_spec (2 * (M mod 2 ^ k)) (2 ^ k)); 
      repeat split; try lia; destruct (Z.even (M / 2 ^ k)); lia.
Qed.

(** A rounded value does not pass a multiple of the step above the exact one. *)
Lemma round_nearest_even_le M k mrs H :
  0 <= M -> 0 <= k -> represents M k mrs -> M <= H * 2 ^ k ->
  round_nearest_even (shr_m mrs) (loc_of_shr_record mrs) <= H.
Proof.
  intros HM Hk Hr HH.
  destruct (round_nearest_even_represents M k mrs HM Hk Hr) as ([_ Hup] & Hex & _).
  pose proof (Z.pow_pos_nonneg 2 k ltac:(lia) Hk) as Pk.
  pose proof (Z.mod_pos_bound M (2 ^ k) Pk) as HR.
  pose proof (Z.div_mod M (2 ^ k) ltac:(lia)) as HD.
  destruct (Z_lt_le_dec (M / 2 ^ k) H) as [L|G]; [lia|].
  rewrite Hex; nia.
Qed.

(** ** Dyadic rationals *)

Lemma Qdyadic_scale m e b :
  b <= e -> (inject_Z m * 2 ^ e == inject_Z (m * 2 ^ (e - b)) * 2 ^ b)%Q.
Proof.
  intros H. rewrite inject_Z_mult, Zpower_Qpower by lia.
  change (inject_Z 2) with 2%Q.
  rewrite <- Qmult_assoc, <- Qpower_plus by discriminate.
  replace (e - b + b) with e by lia. reflexivity.
Qed.

Lemma Qdyadic_le m1 e1 m2 e2 b :
  b <= e1 -> b <= e2 ->
  (inject_Z m1 * 2 ^ e1 <= inject_Z m2 * 2 ^ e2)%Q <->
  m1 * 2 ^ (e1 - b) <= m2 * 2 ^ (e2 - b).
Proof.
  intros H1 H2. rewrite (Qdyadic_scale m1 e1 b H1), (Qdyadic_scale m2 e2 b H2).
  assert (0 < 2 ^ b)%Q as P by (apply Qpower_0_lt; reflexivity).
  rewrite Qmult_le_r by exact P. rewrite <- Zle_Qle. reflexivity.
Qed.

Lemma Qdyadic_pos m e : (0 < inject_Z (Zpos m) * 2 ^ e)%Q.
Proof.
  apply Qmult_lt_0_compat; [reflexivity|]. apply Qpower_0_lt. reflexivity.
Qed.

Lemma Pos_iter_xO m d : Zpos (Pos.iter xO m d) = Zpos m * 2 ^ Zpos d.
Proof.
  induction d as [|d IH] using Pos.peano_ind.
  - simpl. lia.
  - rewrite Pos.iter_succ, Pos2Z.inj_xO, IH, Pos2Z.inj_succ, Z.pow_succ_r by lia. lia.
Qed.

Lemma shl_align_spec mx ex ex' :
  snd (shl_align mx ex ex') = Z.min ex ex' /\
  Zpos (fst (shl_align mx ex ex')) = Zpos mx * 2 ^ (ex - Z.min ex ex').
Proof.
  unfold shl_align. destruct (ex' - ex) as [|d|d] eqn:E; simpl fst; simpl snd.
  - replace (ex - Z.min ex ex') with 0 by lia. simpl. lia.
  - replace (ex - Z.min ex ex') with 0 by lia. simpl. lia.
  - rewrite Pos_iter_xO. replace (ex - Z.min ex ex') with (Zpos d) by lia. lia.
Qed.

(** ** Rounding an exact value into a format *)

Section Round.
Variables pr em : Z.
Hypothesis pr_pos : 0 < pr.

Local Abbreviation emn := (SpecFloat.emin pr em).
Local Abbreviation fexp' := (SpecFloat.fexp pr em).

Lemma fexp_mono a b : a <= b -> fexp' a <= fexp' b.
Proof. unfold SpecFloat.fexp. lia. Qed.

Lemma fexp_ge_emin a : emn <= fexp' a.
Proof. unfold SpecFloat.fexp. lia. Qed.

(** The steps of [binary_round_aux] on an exact value whose exponent is not
    above the one the format gives it. *)
Lemma binary_round_aux_exact_inv s m e :
  let e1 := fexp' (Zpos (digits2_pos m) + e) in
  e <= e1 ->
  exists mrs1 mrs2,
    let m1 := round_nearest_even (shr_m mrs1) (loc_of_shr_record mrs1) in
    let n2 := Z.max (fexp' (Zdigits2 m1 + e1) - e1) 0 in
    represents (Zpos m) (e1 - e) mrs1 /\
    represents m1 n2 mrs2 /\
    binary_round_aux pr em s (Zpos m) e loc_Exact =
      match shr_m mrs2 with
      | 0 => S754_zero s
      | Zpos m2 => if e1 + n2 <=? em - pr then S754_finite s m2 (e1 + n2)
                   else S754_infinity s
      | Zneg _ => S754_nan
      end.
Proof.
  intros e1 He. unfold binary_round_aux, shr_fexp. cbn [Zdigits2]. fold e1.
  destruct (shr_represents (Zpos m) e (e1 - e) ltac:(lia)) as [R1 S1].
  destruct (shr (shr_record_of_loc (Zpos m) loc_Exact) e (e1 - e)) as [mrs1 e1'].
  simpl in R1, S1. replace (Z.max (e1 - e) 0) with (e1 - e) in * by lia.
  assert (e1' = e1) as -> by lia.
  set (m1 := round_nearest_even (shr_m mrs1) (loc_of_shr_record mrs1)).
  assert (0 <= m1) as Hm1.
  { destruct (round_nearest_even_represents (Zpos m) (e1 - e) mrs1 ltac:(lia) ltac:(lia) R1)
      as ([Hlo _] & _). pose proof (Z.pow_pos_nonneg 2 (e1 - e) ltac:(lia) ltac:(lia)).
    assert (0 <= Zpos m / 2 ^ (e1 - e)) by (apply Z.div_pos; lia). fold m1 in Hlo. lia. }
  destruct (shr_represents m1 e1 (fexp' (Zdigits2 m1 + e1) - e1) Hm1) as [R2 S2].
  destruct (shr (shr_record_of_loc m1 loc_Exact) e1 _) as [mrs2 e2].
  simpl in R2, S2. subst e2.
  exists mrs1, mrs2. cbn zeta. fold m1. done.
Qed.

Lemma binary_round_aux_exact_valid s m e :
  e <= fexp' (Zpos (digits2_pos m) + e) ->
  SpecFloat.valid_binary pr em (binary_round_aux pr em s (Zpos m) e loc_Exact) = true.
Proof.
  intros He. destruct (binary_round_aux_exact_inv s m e He) as (mrs1 & mrs2 & R1 & R2 & ->).
  set (e1 := fexp' (Zpos (digits2_pos m) + e)) in *.
  set (m1 := round_nearest_even (shr_m mrs1) (loc_of_shr_record mrs1)) in *.
  set (n2 := Z.max (fexp' (Zdigits2 m1 + e1) - e1) 0) in *.
  destruct (shr_m mrs2) as [|m2|m2] eqn:E2; [done| |].
  2:{ destruct R2 as [R2 _]. rewrite E2 in R2.
      destruct (round_nearest_even_represents (Zpos m) (e1 - e) mrs1 ltac:(lia) ltac:(lia) R1)
        as ([Hlo _] & _). fold m1 in Hlo.
      assert (0 <= Zpos m / 2 ^ (e1 - e)) by (apply Z.div_pos; [lia|apply Z.pow_pos_nonneg; lia]).
      assert (0 <= m1 / 2 ^ n2) by (apply Z.div_pos; [lia|apply Z.pow_pos_nonneg; lia]). lia. }
  destruct (Z.leb_spec (e1 + n2) (em - pr)) as [Hle|]; [|done].
  cbn [SpecFloat.valid_binary]. unfold bounded, canonical_mantissa.
  apply andb_true_intro. split; [|by apply Z.leb_le].
  apply Z.eqb_eq.
  destruct R2 as [R2 _]. rewrite E2 in R2.
  assert (0 < m1 / 2 ^ n2) as Hq2 by lia.
  change (Zpos (digits2_pos m2)) with (Zdigits2 (Zpos m2)). rewrite R2.
  rewrite Zdigits2_div_pow2 by lia.
  replace (Zdigits2 m1 - n2 + (e1 + n2)) with (Zdigits2 m1 + e1) by lia.
  assert (e1 <= fexp' (Zdigits2 m1 + e1)); [|lia].
  assert (0 < m1) as Hm1.
  { destruct (Z_lt_le_dec 0 m1); [done|].
    assert (m1 / 2 ^ n2 <= 0); [|lia].
    apply Z.div_le_upper_bound; [apply Z.pow_pos_nonneg; lia|lia]. }
  destruct (round_nearest_even_represents (Zpos m) (e1 - e) mrs1 ltac:(lia) ltac:(lia) R1)
    as ([Hlo Hhi] & _). fold m1 in Hlo, Hhi.
  pose proof (Z.pow_pos_nonneg 2 (e1 - e) ltac:(lia) ltac:(lia)) as Pn.
  assert (0 <= Zpos m / 2 ^ (e1 - e)) as Hq by (apply Z.div_pos; lia).
  destruct (Z.eq_dec (Zpos m / 2 ^ (e1 - e)) 0) as [Q0|Qn].
  - (* everything was shifted out: the format is in its lowest binade *)
    assert (m1 = 1) as -> by lia. simpl Zdigits2.
    assert (Zpos m < 2 ^ (e1 - e)).
    { destruct (Z_lt_le_dec (Zpos m) (2 ^ (e1 - e))); [done|].
      assert (1 <= Zpos m / 2 ^ (e1 - e)); [|lia].
      apply Z.div_le_lower_bound; lia. }
    assert (Zpos (digits2_pos m) <= e1 - e).
    { change (Zpos (digits2_pos m)) with (Zdigits2 (Zpos m)). apply Zdigits2_le; lia. }
    unfold e1, SpecFloat.fexp in *. lia.
  - assert (Zdigits2 (Zpos m / 2 ^ (e1 - e)) = Zdigits2 (Zpos m) - (e1 - e)) as Ed
      by (apply Zdigits2_div_pow2; lia).
    pose proof (Zdigits2_mono (Zpos m / 2 ^ (e1 - e)) m1 ltac:(lia) Hlo) as Hd.
    rewrite Ed in Hd. simpl Zdigits2 in Hd.
    transitivity (fexp' (Zpos (digits2_pos m) + e)); [done|]. apply fexp_mono. lia.
Qed.

Lemma valid_finite_canonical s m e :
  SpecFloat.valid_binary pr em (S754_finite s m e) = true ->
  fexp' (Zpos (digits2_pos m) + e) = e.
Proof.
  unfold SpecFloat.valid_binary, bounded, canonical_mantissa. intros H.
  apply andb_prop in H as [H _]. by apply Z.eqb_eq in H.
Qed.

(** The rounded value stays below every datum of the format that is not
    below the exact value; in particular it does not overflow.  Values are
    counted in units of [2^b], for any [b] below the exponents at hand. *)
Lemma binary_round_aux_exact_le s m e mh eh b :
  e <= fexp' (Zpos (digits2_pos m) + e) ->
  SpecFloat.valid_binary pr em (S754_finite false mh eh) = true ->
  b <= e -> b <= eh ->
  Zpos m * 2 ^ (e - b) <= Zpos mh * 2 ^ (eh - b) ->
  match binary_round_aux pr em s (Zpos m) e loc_Exact with
  | S754_zero _ => True
  | S754_finite _ m2 e2 => b <= e2 /\ Zpos m2 * 2 ^ (e2 - b) <= Zpos mh * 2 ^ (eh - b)
  | _ => False
  end.
Proof.
  intros He Vh Hbe Hbh HV.
  destruct (binary_round_aux_exact_inv s m e He) as (mrs1 & mrs2 & R1 & R2 & ->).
  set (e1 := fexp' (Zpos (digits2_pos m) + e)) in *.
  set (m1 := round_nearest_even (shr_m mrs1) (loc_of_shr_record mrs1)) in *.
  set (n2 := Z.max (fexp' (Zdigits2 m1 + e1) - e1) 0) in *.
  pose proof (valid_finite_canonical _ _ _ Vh) as Ch.
  apply (valid_finite_inv pr em pr_pos) in Vh as (Heh & Hmh & _).
  pose proof (digits2_pos_bounds m) as [Dlo _].
  set (d := Zpos (digits2_pos m)) in *.
  assert (0 < 2 ^ (e - b)) as Peb by (apply Z.pow_pos_nonneg; lia).
  (* the exponent of the bound is not below the one given to the value *)
  assert (e1 <= eh) as He1.
  { destruct (Z_le_gt_dec e1 eh) as [|G]; [done|exfalso].
    assert (e1 = d + e - pr) as E1 by (unfold e1, SpecFloat.fexp in *; lia).
    assert (Zpos mh * 2 ^ (eh - b) < 2 ^ pr * 2 ^ (eh - b)) as L1.
    { apply Z.mul_lt_mono_pos_r; [apply Z.pow_pos_nonneg; lia|done]. }
    assert (2 ^ pr * 2 ^ (eh - b) <= 2 ^ (d - 1) * 2 ^ (e - b)) as L2.
    { rewrite <- !Z.pow_add_r by lia. apply Z.pow_le_mono_r; lia. }
    assert (2 ^ (d - 1) * 2 ^ (e - b) <= Zpos m * 2 ^ (e - b)) as L3.
    { apply Z.mul_le_mono_nonneg_r; lia. }
    lia. }
  set (k := eh - e1). set (H := Zpos mh * 2 ^ k).
  assert (0 < 2 ^ k) as Pk by (apply Z.pow_pos_nonneg; lia).
  assert (0 < 2 ^ (e1 - e)) as Pn by (apply Z.pow_pos_nonneg; lia).
  assert (2 ^ (eh - b) = 2 ^ k * 2 ^ (e1 - e) * 2 ^ (e - b)) as Eeh.
  { rewrite <- !Z.pow_add_r by lia. f_equal. lia. }
  assert (Zpos m <= H * 2 ^ (e1 - e)) as HmH.
  { unfold H. rewrite Eeh in HV. nia. }
  pose proof (round_nearest_even_le (Zpos m) (e1 - e) mrs1 H ltac:(lia) ltac:(lia) R1 HmH) as Hm1.
  fold m1 in Hm1.
  destruct R2 as [R2 _].
  assert (0 <= n2) as Hn2 by lia.
  assert (0 < 2 ^ n2) as Pn2 by (apply Z.pow_pos_nonneg; lia).
  destruct (shr_m mrs2) as [|m2|m2] eqn:E2; [done| |].
  2:{ destruct (round_nearest_even_represents (Zpos m) (e1 - e) mrs1 ltac:(lia) ltac:(lia) R1)
        as ([Hlo _] & _). fold m1 in Hlo.
      assert (0 <= Zpos m / 2 ^ (e1 - e)) by (apply Z.div_pos; lia).
      assert (0 <= m1 / 2 ^ n2) by (apply Z.div_pos; lia). lia. }
  assert (0 < m1) as Hm1p.
  { destruct (Z_lt_le_dec 0 m1); [done|].
    assert (m1 / 2 ^ n2 <= 0); [|lia]. apply Z.div_le_upper_bound; lia. }
  assert (e1 + n2 <= eh) as He2.
  { assert (fexp' (Zdigits2 m1 + e1) <= eh); [|lia].
    rewrite <- Ch. apply fexp_mono.
    pose proof (Zdigits2_mono m1 H Hm1p Hm1) as Hd.
    unfold H in Hd. rewrite Zdigits2_mul_pow2 in Hd by lia. simpl Zdigits2 in Hd. lia. }
  destruct (Z.leb_spec (e1 + n2) (em - pr)); [|lia].
  split; [lia|].
  assert (2 ^ (e1 + n2 - b) = 2 ^ n2 * (2 ^ (e1 - e) * 2 ^ (e - b))) as ->.
  { rewrite <- !Z.pow_add_r by lia. f_equal. lia. }
  rewrite Eeh.
  pose proof (Z.div_mod m1 (2 ^ n2) ltac:(lia)) as DM.
  pose proof (Z.mod_pos_bound m1 (2 ^ n2) Pn2) as MB.
  rewrite <- R2 in DM.
  assert (Zpos m2 * 2 ^ n2 <= H) as L by lia. unfold H in L.
  assert (0 < 2 ^ (e1 - e) * 2 ^ (e - b)) as PP by lia.
  nia.
Qed.

(** The same bound on values. *)
Lemma binary_round_aux_exact_bound s m e mh eh :
  e <= fexp' (Zpos (digits2_pos m) + e) ->
  SpecFloat.valid_binary pr em (S754_finite false mh eh) = true ->
  (inject_Z (Zpos m) * 2 ^ e <= inject_Z (Zpos mh) * 2 ^ eh)%Q ->
  let R := binary_round_aux pr em s (Zpos m) e loc_Exact in
  is_finite R = true /\ (F2Q (SFabs R) <= inject_Z (Zpos mh) * 2 ^ eh)%Q.
Proof.
  intros He Vh HV R.
  pose proof (binary_round_aux_exact_le s m e mh eh (Z.min e eh) He Vh
                ltac:(lia) ltac:(lia)) as B.
  rewrite <- (Qdyadic_le _ _ _ _ (Z.min e eh)) in B by lia. specialize (B HV).
  fold R in B. destruct R as [s'|s'| |s' m2 e2]; try done.
  - split; [done|]. simpl. apply Qlt_le_weak, Qdyadic_pos.
  - destruct B as [Hb B]. split; [done|]. cbn [SFabs F2Q cond_Zopp].
    by apply (Qdyadic_le _ _ _ _ (Z.min e eh)); [lia..|].
Qed.

Lemma binary_round_aligned m e :
  let mz := fst (shl_align m e (fexp' (Zpos (digits2_pos m) + e))) in
  let ez := snd (shl_align m e (fexp' (Zpos (digits2_pos m) + e))) in
  ez <= fexp' (Zpos (digits2_pos mz) + ez) /\
  (inject_Z (Zpos mz) * 2 ^ ez == inject_Z (Zpos m) * 2 ^ e)%Q.
Proof.
  intros mz ez.
  destruct (shl_align_spec m e (fexp' (Zpos (digits2_pos m) + e))) as [Ee Em].
  fold mz ez in Ee, Em. split.
  - change (Zpos (digits2_pos mz)) with (Zdigits2 (Zpos mz)). rewrite Em.
    rewrite Zdigits2_mul_pow2 by lia. simpl Zdigits2.
    replace (Zpos (digits2_pos m) + (e - Z.min e (fexp' (Zpos (digits2_pos m) + e))) + ez)
      with (Zpos (digits2_pos m) + e) by lia. lia.
  - rewrite (Qdyadic_scale (Zpos m) e ez) by lia. rewrite Em, Ee. reflexivity.
Qed.

Lemma binary_round_valid s m e :
  SpecFloat.valid_binary pr em (binary_round pr em s m e) = true.
Proof.
  unfold binary_round. destruct (binary_round_aligned m e) as [A _].
  destruct (shl_align _ _ _) as [mz ez]. by apply binary_round_aux_exact_valid.
Qed.

Lemma binary_round_bound s m e mh eh :
  SpecFloat.valid_binary pr em (S754_finite false mh eh) = true ->
  (inject_Z (Zpos m) * 2 ^ e <= inject_Z (Zpos mh) * 2 ^ eh)%Q ->
  let R := binary_round pr em s m e in
  is_finite R = true /\ (F2Q (SFabs R) <= inject_Z (Zpos mh) * 2 ^ eh)%Q.
Proof.
  intros Vh HV. unfold binary_round. destruct (binary_round_aligned m e) as [A E].
  destruct (shl_align _ _ _) as [mz ez]. simpl in A, E.
  apply binary_round_aux_exact_bound; [done..|]. by rewrite E.
Qed.

(** A value that is already a datum of the format is not changed. *)
Lemma binary_round_aux_canonical s m e :
  fexp' (Zpos (digits2_pos m) + e) = e -> e <= em - pr ->
  binary_round_aux pr em s (Zpos m) e loc_Exact = S754_finite s m e.
Proof.
  intros Hc Ho.
  destruct (binary_round_aux_exact_inv s m e ltac:(lia)) as (mrs1 & mrs2 & R1 & R2 & ->).
  rewrite Hc in *. replace (e - e) with 0 in R1 by lia.
  destruct R1 as [M1 L1]. rewrite Z.div_1_r in M1. rewrite Z.mod_1_r in L1.
  rewrite M1, L1 in R2. cbn [loc_of_rem Z.eqb round_nearest_even] in R2.
  cbn [Zdigits2] in R2. rewrite Hc in R2. replace (Z.max (e - e) 0) with 0 in R2 by lia.
  destruct R2 as [M2 _]. rewrite Z.div_1_r in M2. rewrite M2.
  rewrite M1, L1. cbn [loc_of_rem Z.eqb round_nearest_even Zdigits2]. rewrite Hc.
  replace (e + Z.max (e - e) 0) with e by lia.
  by destruct (Z.leb_spec e (em - pr)); [|lia].
Qed.

Lemma binary_round_exact s m e :
  fexp' (Zpos (digits2_pos m) + e) <= e ->
  fexp' (Zpos (digits2_pos m) + e) <= em - pr ->
  let R := binary_round pr em s m e in
  is_finite R = true /\ has_sign s R /\
  (F2Q (SFabs R) == inject_Z (Zpos m) * 2 ^ e)%Q.
Proof.
  intros Hc Ho. unfold binary_round.
  destruct (binary_round_aligned m e) as [A E].
  destruct (shl_align_spec m e (fexp' (Zpos (digits2_pos m) + e))) as [Ee Em].
  destruct (shl_align _ _ _) as [mz ez]. simpl in A, E, Ee, Em.
  assert (fexp' (Zpos (digits2_pos mz) + ez) = ez) as Hz.
  { change (Zpos (digits2_pos mz)) with (Zdigits2 (Zpos mz)). rewrite Em.
    rewrite Zdigits2_mul_pow2 by lia. simpl Zdigits2.
    replace (Zpos (digits2_pos m) + (e - Z.min e (fexp' (Zpos (digits2_pos m) + e))) + ez)
      with (Zpos (digits2_pos m) + e) by lia. lia. }
  rewrite binary_round_aux_canonical by lia.
  cbn [is_finite has_sign SFabs F2Q cond_Zopp]. by rewrite E.
Qed.
End Round.

(** ** Bounds through the operations *)

Lemma F2Q_abs_nonneg x : (0 <= F2Q (SFabs x))%Q.
Proof.
  destruct x as [s|s| |s m e]; cbn [SFabs F2Q cond_Zopp]; try apply Qle_refl.
  apply Qlt_le_weak, Qdyadic_pos.
Qed.

Lemma F2Q_sign_false x : has_sign false x -> F2Q x = F2Q (SFabs x).
Proof. destruct x; cbn [has_sign]; try done; by intros ->. Qed.

Lemma F2Q_sign_true x : has_sign true x -> (F2Q x == - F2Q (SFabs x))%Q.
Proof.
  destruct x as [s|s| |s m e]; cbn [has_sign]; try done; intros ->; try reflexivity.
  cbn [SFabs F2Q cond_Zopp]. rewrite inject_Z_opp. ring.
Qed.

Lemma F2Q_finite_nonneg s m e : (0 <= F2Q (S754_finite s m e))%Q -> s = false.
Proof.
  destruct s; [|done]. intros H. exfalso.
  pose proof (Qdyadic_pos m e) as P. cbn [F2Q cond_Zopp] in H.
  rewrite inject_Z_opp in H. revert H P.
  generalize (2 ^ e)%Q (inject_Z (Zpos m)). intros a b H P.
  assert (- b * a == - (b * a))%Q as E by ring. rewrite E in H. lra.
Qed.

Section Arithmetic.
Variables pr em : Z.
Hypothesis pr_pos : 0 < pr.
Hypothesis emin_neg : SpecFloat.emin pr em <= 0.

Local Abbreviation emn := (SpecFloat.emin pr em).
Local Abbreviation fexp' := (SpecFloat.fexp pr em).
Local Abbreviation validf := (SpecFloat.valid_binary pr em).

(** The exact product of two data of the format has enough digits for
    [binary_round_aux] to round it as it stands. *)
Lemma SFmul_aligned sx mx ex sy my ey :
  validf (S754_finite sx mx ex) = true -> validf (S754_finite sy my ey) = true ->
  ex + ey <= fexp' (Zpos (digits2_pos (mx * my)) + (ex + ey)).
Proof.
  intros Vx Vy.
  pose proof (valid_finite_canonical pr em _ _ _ Vx) as Cx.
  pose proof (valid_finite_canonical pr em _ _ _ Vy) as Cy.
  pose proof (digits2_pos_bounds mx) as [Lx _].
  pose proof (digits2_pos_bounds my) as [Ly _].
  set (dx := Zpos (digits2_pos mx)) in *. set (dy := Zpos (digits2_pos my)) in *.
  assert (dx + dy - 2 < Zdigits2 (Zpos (mx * my))) as HD.
  { apply Zdigits2_ge; [lia|]. replace (dx + dy - 2) with ((dx - 1) + (dy - 1)) by lia.
    rewrite Z.pow_add_r by lia. rewrite Pos2Z.inj_mul.
    apply Z.mul_le_mono_nonneg; try done; apply Z.pow_nonneg; lia. }
  simpl Zdigits2 in HD. unfold SpecFloat.fexp in *. lia.
Qed.

Lemma SFmul_finite_valid sx mx ex sy my ey :
  validf (S754_finite sx mx ex) = true -> validf (S754_finite sy my ey) = true ->
  validf (SFmul pr em (S754_finite sx mx ex) (S754_finite sy my ey)) = true.
Proof.
  intros Vx Vy. cbn [SFmul]. apply binary_round_aux_exact_valid; try done.
  by apply (SFmul_aligned sx mx ex sy my ey).
Qed.

(** A product does not pass a datum of the format that bounds the exact
    product of the magnitudes. *)
Lemma SFmul_finite_bound sx mx ex sy my ey mh eh :
  validf (S754_finite sx mx ex) = true -> validf (S754_finite sy my ey) = true ->
  validf (S754_finite false mh eh) = true ->
  (F2Q (S754_finite false mx ex) * F2Q (S754_finite false my ey)
     <= F2Q (S754_finite false mh eh))%Q ->
  let R := SFmul pr em (S754_finite sx mx ex) (S754_finite sy my ey) in
  is_finite R = true /\ (F2Q (SFabs R) <= F2Q (S754_finite false mh eh))%Q.
Proof.
  intros Vx Vy Vh H. cbn [SFmul F2Q cond_Zopp] in *.
  apply binary_round_aux_exact_bound; try done;
    [by apply (SFmul_aligned sx mx ex sy my ey)|].
  rewrite Pos2Z.inj_mul, inject_Z_mult, Qpower_plus by discriminate.
  eapply Qle_trans; [|exact H]. apply Qle_lteq. right. ring.
Qed.

(** [binary_normalize] of a non-zero integer mantissa. *)
Lemma binary_normalize_pos_bound M e mh eh :
  0 < M -> validf (S754_finite false mh eh) = true ->
  (inject_Z M * 2 ^ e <= F2Q (S754_finite false mh eh))%Q ->
  let R := binary_normalize pr em M e false in
  is_finite R = true /\ validf R = true /\ has_sign false R /\
  (0 <= F2Q R)%Q /\ (F2Q R <= F2Q (S754_finite false mh eh))%Q.
Proof.
  intros HM Vh H. destruct M as [|m|m]; try lia. cbn [binary_normalize].
  destruct (binary_round_bound pr em pr_pos false m e mh eh Vh H) as [F B].
  pose proof (binary_round_sign pr em false m e) as S.
  pose proof (binary_round_valid pr em false m e) as V.
  cbn zeta. rewrite (F2Q_sign_false _ S).
  repeat split; try done. apply F2Q_abs_nonneg.
Qed.

Lemma binary_normalize_neg_bound M e mh eh :
  M < 0 -> validf (S754_finite false mh eh) = true ->
  (inject_Z (- M) * 2 ^ e <= F2Q (S754_finite false mh eh))%Q ->
  let R := binary_normalize pr em M e false in
  is_finite R = true /\ validf R = true /\ has_sign true R /\
  (F2Q R <= 0)%Q /\ (- F2Q (S754_finite false mh eh) <= F2Q R)%Q.
Proof.
  intros HM Vh H. destruct M as [|m|m]; try lia. cbn [binary_normalize].
  change (- Zneg m) with (Zpos m) in H.
  destruct (binary_round_bound pr em pr_pos true m e mh eh Vh H) as [F B].
  pose proof (binary_round_sign pr em true m e) as S.
  pose proof (binary_round_valid pr em true m e) as V.
  pose proof (F2Q_abs_nonneg (binary_round pr em true m e)) as N.
  cbn zeta. rewrite (F2Q_sign_true _ S). cbn [F2Q cond_Zopp].
  revert B N. generalize (inject_Z (Zpos mh) * 2 ^ eh)%Q.
  generalize (F2Q (SFabs (binary_round pr em true m e))). intros a b B N.
  repeat split; try done; lra.
Qed.

(** The integer that an addition or a subtraction of finite data rounds. *)
Lemma shl_align_value m e ez :
  ez <= e -> (inject_Z (Zpos (fst (shl_align m e ez))) * 2 ^ ez == inject_Z (Zpos m) * 2 ^ e)%Q.
Proof.
  intros H. destruct (shl_align_spec m e ez) as [_ E]. rewrite E.
  replace (Z.min e ez) with ez by lia. symmetry. by apply Qdyadic_scale.
Qed.

Lemma aligned_term_value s m e ez :
  ez <= e ->
  (inject_Z (cond_Zopp s (Zpos (fst (shl_align m e ez)))) * 2 ^ ez
     == F2Q (S754_finite s m e))%Q.
Proof.
  intros H. pose proof (shl_align_value m e ez H) as E. cbn [F2Q].
  destruct s; cbn [cond_Zopp]; [|exact E].
  rewrite !inject_Z_opp.
  assert (forall a b : Q, (- a * b == - (a * b))%Q) as N by (intros; ring).
  rewrite !N. by rewrite E.
Qed.

Lemma SFadd_finite_value sx mx ex sy my ey :
  let ez := Z.min ex ey in
  let M := cond_Zopp sx (Zpos (fst (shl_align mx ex ez)))
           + cond_Zopp sy (Zpos (fst (shl_align my ey ez))) in
  SFadd pr em (S754_finite sx mx ex) (S754_finite sy my ey) = binary_normalize pr em M ez false /\
  (inject_Z M * 2 ^ ez == F2Q (S754_finite sx mx ex) + F2Q (S754_finite sy my ey))%Q.
Proof.
  intros ez M. split; [reflexivity|]. unfold M.
  rewrite inject_Z_plus, Qmult_plus_distr_l.
  rewrite !aligned_term_value by lia. reflexivity.
Qed.

Lemma SFsub_finite_value sx mx ex sy my ey :
  let ez := Z.min ex ey in
  let M := cond_Zopp sx (Zpos (fst (shl_align mx ex ez)))
           - cond_Zopp sy (Zpos (fst (shl_align my ey ez))) in
  SFsub pr em (S754_finite sx mx ex) (S754_finite sy my ey) = binary_normalize pr em M ez false /\
  (inject_Z M * 2 ^ ez == F2Q (S754_finite sx mx ex) - F2Q (S754_finite sy my ey))%Q.
Proof.
  intros ez M. split; [reflexivity|]. unfold M.
  assert (forall a b : Z, a - b = a + - b) as E by (intros; lia). rewrite E.
  rewrite inject_Z_plus, inject_Z_opp, Qmult_plus_distr_l.
  assert (forall a b : Q, (- a * b == - (a * b))%Q) as N by (intros; ring).
  rewrite N, !aligned_term_value by lia. reflexivity.
Qed.

(** The sign of an integer mantissa is that of the value it stands for. *)
Lemma dyadic_sign M e (q : Q) :
  (inject_Z M * 2 ^ e == q)%Q ->
  ((0 < q)%Q -> 0 < M) /\ ((q < 0)%Q -> M < 0) /\ ((q == 0)%Q -> M = 0).
Proof.
  intros E. assert (0 < 2 ^ e)%Q as P by (apply Qpower_0_lt; reflexivity).
  rewrite <- E. repeat split; intros H.
  - destruct (Z_lt_le_dec 0 M) as [|L]; [done|exfalso].
    rewrite Zle_Qle in L. change (inject_Z 0) with 0%Q in L. nra.
  - destruct (Z_lt_le_dec M 0) as [|L]; [done|exfalso].
    rewrite Zle_Qle in L. change (inject_Z 0) with 0%Q in L. nra.
  - destruct (Z.eq_dec M 0) as [|N]; [done|exfalso].
    assert (M < 0 \/ 0 < M) as [L|L] by lia; rewrite Zlt_Qlt in L;
      change (inject_Z 0) with 0%Q in L; nra.
Qed.
End Arithmetic.

(** ** Comparisons of binary64 data, by value *)

Lemma compare64 x y :
  valid x = true -> valid y = true -> is_finite x = true -> is_finite y = true ->
  SFcompare x y = Some (F2Q x ?= F2Q y)%Q.
Proof. apply compare_F2Q. reflexivity. Qed.

Section CompareWithConstant.
Variables (x c : float) (q : Q).
Hypotheses (Vx : valid x = true) (Fx : is_finite x = true).
Hypothesis Hc : has_value c q = true.

Lemma has_value_inv : valid c = true /\ is_finite c = true /\ (F2Q c == q)%Q.
Proof.
  unfold has_value in Hc. apply andb_prop in Hc as [H1 H3].
  apply andb_prop in H1 as [H1 H2]. by apply Qeq_bool_iff in H3.
Qed.

Lemma compare_constant : SFcompare x c = Some (F2Q x ?= q)%Q.
Proof.
  destruct has_value_inv as (Vc & Fc & E).
  rewrite compare64 by assumption. f_equal. apply Qcompare_comp; [reflexivity|exact E].
Qed.

Lemma cmp_lt : (F2Q x < q)%Q ->
  flt x c = true /\ fge x c = false /\ feq x c = false /\ fne x c = true.
Proof.
  intros H. unfold flt, fge, feq, fne, SFltb, SFeqb. rewrite compare_constant.
  destruct (Qcompare_spec (F2Q x) q); first [done | lra].
Qed.

Lemma cmp_gt : (q < F2Q x)%Q ->
  flt x c = false /\ fge x c = true /\ feq x c = false /\ fne x c = true.
Proof.
  intros H. unfold flt, fge, feq, fne, SFltb, SFeqb. rewrite compare_constant.
  destruct (Qcompare_spec (F2Q x) q); first [done | lra].
Qed.

Lemma cmp_eq : (F2Q x == q)%Q ->
  flt x c = false /\ fge x c = true /\ feq x c = true /\ fne x c = false.
Proof.
  intros H. unfold flt, fge, feq, fne, SFltb, SFeqb. rewrite compare_constant.
  destruct (Qcompare_spec (F2Q x) q); first [done | lra].
Qed.

Lemma cmp_ge : (q <= F2Q x)%Q -> flt x c = false /\ fge x c = true.
Proof.
  intros H. destruct (Qcompare_spec (F2Q x) q) as [E|L|G].
  - destruct (cmp_eq E) as (? & ? & _). done.
  - lra.
  - destruct (cmp_gt G) as (? & ? & _). done.
Qed.
End CompareWithConstant.

(** Settles, in the goal, every comparison of [x] with the integer [n]
    from what the context says about the value of [x]. *)
Ltac settle_cmp x Vx Fx n q :=
  let C := fresh "C" in
  assert (C : has_value (of_int n) q = true) by (vm_compute; reflexivity);
  first
    [ let H := fresh in
      assert (H : (F2Q x == q)%Q) by lra;
      destruct (cmp_eq x (of_int n) q Vx Fx C H) as (?E & ?E & ?E & ?E)
    | let H := fresh in
      assert (H : (F2Q x < q)%Q) by lra;
      destruct (cmp_lt x (of_int n) q Vx Fx C H) as (?E & ?E & ?E & ?E)
    | let H := fresh in
      assert (H : (q < F2Q x)%Q) by lra;
      destruct (cmp_gt x (of_int n) q Vx Fx C H) as (?E & ?E & ?E & ?E)
    | let H := fresh in
      assert (H : (q <= F2Q x)%Q) by lra;
      destruct (cmp_ge x (of_int n) q Vx Fx C H) as (?E & ?E) ];
  repeat match goal with
         | E : _ = true |- _ => rewrite E; clear E
         | E : _ = false |- _ => rewrite E; clear E
         end.

(** ** The reclassifiers *)

Import build_risk_model.

Lemma is_finite_not_nan x : is_finite x = true -> is_nan x = false.
Proof. by destruct x. Qed.

Section SlopeLadder.
Variable x : float.
Hypotheses (Vx : valid x = true) (Fx : is_finite x = true).

Local Ltac ladder :=
  unfold slope_risk_of; rewrite (is_finite_not_nan x Fx);
  settle_cmp x Vx Fx 5 5%Q; settle_cmp x Vx Fx 15 15%Q;
  settle_cmp x Vx Fx 25 25%Q; settle_cmp x Vx Fx 35 35%Q; reflexivity.

Lemma slope_risk_lt_5 : (F2Q x < 5)%Q -> slope_risk_of x = 1.
Proof. intros. ladder. Qed.
Lemma slope_risk_5_15 : (5 <= F2Q x)%Q -> (F2Q x < 15)%Q -> slope_risk_of x = 2.
Proof. intros. ladder. Qed.
Lemma slope_risk_15_25 : (15 <= F2Q x)%Q -> (F2Q x < 25)%Q -> slope_risk_of x = 3.
Proof. intros. ladder. Qed.
Lemma slope_risk_25_35 : (25 <= F2Q x)%Q -> (F2Q x < 35)%Q -> slope_risk_of x = 4.
Proof. intros. ladder. Qed.
Lemma slope_risk_ge_35 : (35 <= F2Q x)%Q -> slope_risk_of x = 5.
Proof. intros. ladder. Qed.

Lemma slope_risk_finite_range : 1 <= slope_risk_of x <= 5.
Proof.
  destruct (Qlt_le_dec (F2Q x) 5); [rewrite slope_risk_lt_5 by done; lia|].
  destruct (Qlt_le_dec (F2Q x) 15); [rewrite slope_risk_5_15 by done; lia|].
  destruct (Qlt_le_dec (F2Q x) 25); [rewrite slope_risk_15_25 by done; lia|].
  destruct (Qlt_le_dec (F2Q x) 35); [rewrite slope_risk_25_35 by done; lia|].
  rewrite slope_risk_ge_35 by done; lia.
Qed.
End SlopeLadder.

Section AspectLadder.
Variable x : float.
Hypotheses (Vx : valid x = true) (Fx : is_finite x = true).

Local Ltac ladder :=
  unfold aspect_risk_of; rewrite (is_finite_not_nan x Fx);
  settle_cmp x Vx Fx (-1) (-1)%Q; settle_cmp x Vx Fx 45 45%Q;
  settle_cmp x Vx Fx 135 135%Q; settle_cmp x Vx Fx 225 225%Q;
  settle_cmp x Vx Fx 315 315%Q; reflexivity.

Lemma aspect_risk_flat : (F2Q x == -1)%Q -> aspect_risk_of x = 2.
Proof. intros. ladder. Qed.
Lemma aspect_risk_lt_45 : (F2Q x < 45)%Q -> aspect_risk_of x = 2.
Proof.
  intros. destruct (Qcompare_spec (F2Q x) (-1)); [by apply aspect_risk_flat|ladder..].
Qed.
Lemma aspect_risk_45_135 : (45 <= F2Q x)%Q -> (F2Q x < 135)%Q -> aspect_risk_of x = 3.
Proof. intros. ladder. Qed.
Lemma aspect_risk_135_225 : (135 <= F2Q x)%Q -> (F2Q x < 225)%Q -> aspect_risk_of x = 5.
Proof. intros. ladder. Qed.
Lemma aspect_risk_225_315 : (225 <= F2Q x)%Q -> (F2Q x < 315)%Q -> aspect_risk_of x = 4.
Proof. intros. ladder. Qed.
Lemma aspect_risk_ge_315 : (315 <= F2Q x)%Q -> aspect_risk_of x = 2.
Proof. intros. ladder. Qed.

Lemma aspect_risk_finite_range : 1 <= aspect_risk_of x <= 5.
Proof.
  destruct (Qlt_le_dec (F2Q x) 45); [rewrite aspect_risk_lt_45 by done; lia|].
  destruct (Qlt_le_dec (F2Q x) 135); [rewrite aspect_risk_45_135 by done; lia|].
  destruct (Qlt_le_dec (F2Q x) 225); [rewrite aspect_risk_135_225 by done; lia|].
  destruct (Qlt_le_dec (F2Q x) 315); [rewrite aspect_risk_225_315 by done; lia|].
  rewrite aspect_risk_ge_315 by done; lia.
Qed.
End AspectLadder.

(** C3.  The slope reclassifier acts on each cell by a function of that
    cell's value alone, the half-open ladder: a value in [0,5) gives 1, in
    [5,15) gives 2, in [15,25) gives 3, in [25,35) gives 4, a value of at
    least 35 gives 5, and NaN gives 0; exactly 5.0 gives 2 and exactly
    15.0 gives 3. *)
Theorem reclassify_slope_ladder (slope : grid float) (i j : nat) (x : float) :
  cell slope i j = Some x -> valid x = true ->
  cell (reclassify_slope slope) i j = Some (slope_risk_of x) /\
  (within 0 5 x -> slope_risk_of x = 1) /\
  (within 5 15 x -> slope_risk_of x = 2) /\
  (within 15 25 x -> slope_risk_of x = 3) /\
  (within 25 35 x -> slope_risk_of x = 4) /\
  (at_least 35 x -> slope_risk_of x = 5) /\
  (is_nan x = true -> slope_risk_of x = 0) /\
  slope_risk_of (of_int 5) = 2 /\ slope_risk_of (of_int 15) = 3.
Proof.
  intros Hc Vx. split.
  { rewrite reclassify_slope_amap, cell_amap, Hc. done. }
  repeat split.
  - intros (Fx & ? & ?). by apply slope_risk_lt_5.
  - intros (Fx & ? & ?). by apply slope_risk_5_15.
  - intros (Fx & ? & ?). by apply slope_risk_15_25.
  - intros (Fx & ? & ?). by apply slope_risk_25_35.
  - intros [-> | (Fx & ?)]; [done | by apply slope_risk_ge_35].
  - by destruct x.
Qed.

Lemma reclassify_slope_ladder_witness :
  cell (reclassify_slope [[of_int 3; of_int 7]]) 0 1 = Some 2.
Proof.
  destruct (reclassify_slope_ladder [[of_int 3; of_int 7]] 0 1 (of_int 7) eq_refl eq_refl)
    as (H & _).
  exact H.
Defined.

(** C4.  The aspect reclassifier gives 2 to the flat sentinel -1 (the level
    of north-facing terrain, not NoData), 2 to a value in [315,360) or
    [0,45), 3 to [45,135), 5 to [135,225), 4 to [225,315) and 0 to NaN;
    135.0 gives 5, 134.999 gives 3 (as a double and as the float32 a raster
    holds) and 225.0 gives 4. *)
Theorem reclassify_aspect_ladder (aspect : grid float) (i j : nat) (x : float) :
  cell aspect i j = Some x -> valid x = true ->
  cell (reclassify_aspect aspect) i j = Some (aspect_risk_of x) /\
  (x = of_int (-1) -> aspect_risk_of x = 2) /\
  (within 315 360 x -> aspect_risk_of x = 2) /\
  (within 0 45 x -> aspect_risk_of x = 2) /\
  (within 45 135 x -> aspect_risk_of x = 3) /\
  (within 135 225 x -> aspect_risk_of x = 5) /\
  (within 225 315 x -> aspect_risk_of x = 4) /\
  (is_nan x = true -> aspect_risk_of x = 0) /\
  aspect_risk_of (of_int 135) = 5 /\
  aspect_risk_of (Prim2SF 134.999) = 3 /\
  aspect_risk_of (astype_float32 (Prim2SF 134.999)) = 3 /\
  aspect_risk_of (of_int 225) = 4 /\
  aspect_risk_of (of_int 315) = 2.
Proof.
  intros Hc Vx. split.
  { rewrite reclassify_aspect_amap, cell_amap, Hc. done. }
  repeat split.
  - by intros ->.
  - intros (Fx & ? & ?). by apply aspect_risk_ge_315.
  - intros (Fx & ? & ?). by apply aspect_risk_lt_45.
  - intros (Fx & ? & ?). by apply aspect_risk_45_135.
  - intros (Fx & ? & ?). by apply aspect_risk_135_225.
  - intros (Fx & ? & ?). by apply aspect_risk_225_315.
  - by destruct x.
Qed.

Lemma reclassify_aspect_ladder_witness :
  cell (reclassify_aspect [[of_int 180]; [of_int (-1)]]) 1 0 = Some 2.
Proof.
  destruct (reclassify_aspect_ladder [[of_int 180]; [of_int (-1)]] 1 0 (of_int (-1))
              eq_refl eq_refl) as (H & _).
  exact H.
Defined.

(** ** The terrain engine, position by position *)

Import derive_terrain.

Lemma cell_correlate (input weights : grid float) i j :
  cell (ndimage.correlate input weights) i j =
    (fun _ => ndimage.correlate_point input (ndimage.footprint weights)
                (Z.of_nat i) (Z.of_nat j)) <$> cell input i j.
Proof.
  unfold cell, ndimage.correlate. rewrite list_lookup_imap.
  destruct (input !! i) as [row|]; simpl; [|done].
  by rewrite list_lookup_imap.
Qed.

Lemma cell_slope_degrees L (dx dy : grid float) i j :
  cell (slope_degrees L dx dy) i j =
    x ← cell dx i j; y ← cell dy i j; Some (slope_of L x y).
Proof.
  unfold slope_degrees. rewrite !cell_amap, cell_azip, !cell_amap.
  by destruct (cell dx i j), (cell dy i j).
Qed.

Lemma cell_aspect_degrees L (dx dy sl : grid float) i j x y :
  cell dx i j = Some x -> cell dy i j = Some y ->
  cell sl i j = Some (slope_of L x y) ->
  cell (aspect_degrees L dx dy sl) i j = Some (aspect_of L x y).
Proof.
  intros Hx Hy Hs. unfold aspect_degrees, broadcast, lt_c.
  rewrite !cell_np_where, !cell_amap, !cell_np_where, !cell_amap, cell_azip, cell_amap.
  rewrite Hx, Hy, Hs. reflexivity.
Qed.

Lemma bind_Returned {A B} (r : result A) (k : A -> result B) b :
  bind r k = Returned b -> exists a, r = Returned a /\ k a = Returned b.
Proof. destruct r; simpl; [done|eauto]. Qed.

(** What the engine writes at a position of the DEM. *)
Lemma calculate_slope_aspect_cell L dem cell_size slope aspect i j x :
  calculate_slope_aspect L dem cell_size = Returned (slope, aspect) ->
  cell dem i j = Some x ->
  let dx := dz_dx_at dem cell_size i j in
  let dy := dz_dy_at dem cell_size i j in
  cell slope i j = Some (astype_float32 (slope_of L dx dy)) /\
  cell aspect i j = Some (astype_float32 (aspect_of L dx dy)).
Proof.
  intros H Hc dx dy. unfold calculate_slope_aspect in H. cbv zeta in H.
  repeat (apply bind_Returned in H as (? & _ & H)).
  assert (slope = amap astype_float32
            (slope_degrees L (ndimage.convolve dem (kernel horn_x cell_size))
               (ndimage.convolve dem (kernel horn_y cell_size)))) as -> by congruence.
  assert (aspect = amap astype_float32
            (aspect_degrees L (ndimage.convolve dem (kernel horn_x cell_size))
               (ndimage.convolve dem (kernel horn_y cell_size))
               (slope_degrees L (ndimage.convolve dem (kernel horn_x cell_size))
                  (ndimage.convolve dem (kernel horn_y cell_size))))) as -> by congruence.
  clear H.
  assert (cell (ndimage.convolve dem (kernel horn_x cell_size)) i j = Some dx) as Hx.
  { unfold ndimage.convolve. rewrite cell_correlate, Hc. done. }
  assert (cell (ndimage.convolve dem (kernel horn_y cell_size)) i j = Some dy) as Hy.
  { unfold ndimage.convolve. rewrite cell_correlate, Hc. done. }
  assert (cell (slope_degrees L (ndimage.convolve dem (kernel horn_x cell_size))
                  (ndimage.convolve dem (kernel horn_y cell_size))) i j
          = Some (slope_of L dx dy)) as Hs.
  { rewrite cell_slope_degrees, Hx, Hy. done. }
  split.
  - rewrite cell_amap, Hs. done.
  - rewrite cell_amap. erewrite cell_aspect_degrees; [done|exact Hx|exact Hy|exact Hs].
Qed.

(** The stand-in library obeys the laws. *)
Lemma sector_arctan2_nan y x :
  is_nan (sector_arctan2 y x) = is_nan y || is_nan x.
Proof.
  unfold sector_arctan2, with_sign. destruct (is_nan y || is_nan x); [done|].
  repeat case_match; reflexivity.
Qed.

Lemma sector_arctan2_valid y x : valid (sector_arctan2 y x) = true.
Proof. unfold sector_arctan2, with_sign. repeat case_match; reflexivity. Qed.

Lemma sector_libm_ok : libm_ok sector_libm.
Proof.
  split; cbn [arctan arctan2 sector_libm].
  - intros x. unfold sector_arctan.
    destruct x; try reflexivity; rewrite sector_arctan2_nan; reflexivity.
  - intros x. unfold sector_arctan.
    destruct x; try reflexivity; apply sector_arctan2_valid.
  - apply sector_arctan2_nan.
  - apply sector_arctan2_valid.
  - intros y x. rewrite sector_arctan2_nan. unfold sector_arctan2, with_sign.
    intros ->. repeat case_match; reflexivity.
Qed.

(** ** NaN through the engine *)

Lemma is_nan_eq x : is_nan x = true -> x = nan.
Proof. by destruct x. Qed.

Lemma clip_nan x lo hi :
  is_nan lo = false -> is_nan hi = false -> is_nan (clip x lo hi) = is_nan x.
Proof.
  intros Hlo Hhi. unfold clip. destruct (is_nan x) eqn:E.
  - by rewrite E.
  - destruct (fgt x lo); rewrite ?E, ?Hlo; by destruct (flt _ hi).
Qed.

Lemma degrees_nan x : is_nan (degrees x) = is_nan x.
Proof. apply SFmul_finite_nan. Qed.

Lemma square_nan x : is_nan x = true -> is_nan (square x) = true.
Proof. apply SFmul_nan_l. Qed.

Lemma slope_of_nan L dx dy :
  libm_ok L -> is_nan (slope_of L dx dy) = is_nan dx || is_nan dy.
Proof.
  intros OK. unfold slope_of. rewrite clip_nan by reflexivity.
  rewrite degrees_nan, (arctan_nan L OK).
  destruct (is_nan dx) eqn:Ex.
  { apply SFsqrt_nan, SFadd_nan_l, square_nan, Ex. }
  destruct (is_nan dy) eqn:Ey.
  { apply SFsqrt_nan, SFadd_nan_r, square_nan, Ey. }
  apply (has_sign_not_nan false). apply SFsqrt_nonneg, SFadd_nonneg; by apply SFmul_square.
Qed.

Lemma bearing_of_nan L dx dy :
  libm_ok L -> is_nan dx || is_nan dy = true -> bearing_of L dx dy = nan.
Proof.
  intros OK H. unfold bearing_of.
  assert (degrees (arctan2 L dy (fneg dx)) = nan) as ->.
  { apply is_nan_eq. rewrite degrees_nan, (arctan2_nan L OK).
    destruct dx, dy; done. }
  reflexivity.
Qed.

Lemma aspect_of_nan L dx dy :
  libm_ok L -> is_nan (slope_of L dx dy) = true -> aspect_of L dx dy = nan.
Proof.
  intros OK H. unfold aspect_of. rewrite (is_nan_eq _ H). cbn [flt SFltb SFcompare].
  apply bearing_of_nan; [done|]. by rewrite <- (slope_of_nan L dx dy OK).
Qed.

(** ** Shapes *)

Lemma shape_azip {A B C} (f : A -> B -> C) (g : grid A) (h : grid B) :
  shape g = shape h -> shape (azip f g h) = shape g.
Proof.
  unfold shape, azip. revert h.
  induction g as [|r g IH]; intros [|r' h] E; csimpl in *; try done.
  injection E as E1 E2. f_equal; [|by apply IH].
  by apply length_zip_with_l_eq.
Qed.

Lemma shape_np_where {A} (c : grid bool) (x y : grid A) :
  shape c = shape x -> shape x = shape y -> shape (np_where c x y) = shape c.
Proof.
  intros E1 E2. unfold np_where. rewrite shape_azip; [done|].
  rewrite shape_azip; done.
Qed.

Lemma shape_correlate input weights :
  shape (ndimage.correlate input weights) = shape input.
Proof.
  unfold shape, ndimage.correlate. apply list_eq. intros i.
  rewrite !list_lookup_fmap, list_lookup_imap.
  destruct (input !! i) as [row|]; simpl; [|done]. by rewrite length_imap.
Qed.

Lemma shape_slope_degrees L dx dy :
  shape dx = shape dy -> shape (slope_degrees L dx dy) = shape dx.
Proof.
  intros E. unfold slope_degrees. rewrite !shape_amap, shape_azip, shape_amap; [done|].
  by rewrite !shape_amap.
Qed.

Lemma shape_aspect_degrees L dx dy sl :
  shape dx = shape dy -> shape sl = shape dx -> shape (aspect_degrees L dx dy sl) = shape dx.
Proof.
  intros E1 E2. unfold aspect_degrees, broadcast, lt_c.
  set (a := amap (fun x => fsub (of_int 90) x)
              (amap degrees (azip (arctan2 L) dy (amap fneg dx)))).
  assert (shape a = shape dx) as Ea.
  { unfold a. rewrite !shape_amap, shape_azip; [by symmetry|].
    rewrite shape_amap. by symmetry. }
  set (b := np_where _ _ a).
  assert (shape b = shape dx) as Eb.
  { unfold b. rewrite shape_np_where; rewrite ?shape_amap; done. }
  rewrite shape_np_where; rewrite ?shape_amap; congruence.
Qed.

Lemma size_shape {A B} (g : grid A) (h : grid B) : shape g = shape h -> size g = size h.
Proof.
  unfold size, shape. revert h.
  induction g as [|r g IH]; intros [|r' h] E; csimpl in *; try done.
  injection E as E1 E2. rewrite !length_app, E1. f_equal. by apply IH.
Qed.

Lemma reduce_Returned f a : size a <> 0%nat -> exists v, reduce f a = Returned v.
Proof.
  unfold reduce, size. destruct (concat a); [done|eauto].
Qed.

Lemma reduce_Raised f a : size a = 0%nat -> reduce f a = Raised ValueError.
Proof.
  unfold reduce, size. by destruct (concat a).
Qed.

(** ** The terrain engine: failure, flat cells, NoData *)

(** C5, as the code has it.  The engine checks nothing about the cell size:
    on every non-empty elevation grid it returns a slope and an aspect grid
    of the shape of the input, whatever the cell size; it fails, with
    [ValueError] from the elevation-range reduction and before any gradient
    is computed, exactly when the grid is empty. *)
Theorem no_cell_size_check (L : libm) (dem : grid float) (cell_size : float) :
  match calculate_slope_aspect L dem cell_size with
  | Raised e => e = ValueError /\ size dem = 0%nat
  | Returned (slope, aspect) =>
      size dem <> 0%nat /\ shape slope = shape dem /\ shape aspect = shape dem
  end.
Proof.
  unfold calculate_slope_aspect. cbv zeta.
  destruct (Nat.eq_dec (size dem) 0%nat) as [Z|NZ].
  { unfold np_nanmin at 1. rewrite (reduce_Raised _ _ Z). done. }
  set (gx := ndimage.convolve dem (kernel horn_x cell_size)).
  set (gy := ndimage.convolve dem (kernel horn_y cell_size)).
  assert (shape gx = shape dem) as Ex by apply shape_correlate.
  assert (shape gy = shape dem) as Ey by apply shape_correlate.
  set (sl := slope_degrees L gx gy).
  assert (shape sl = shape dem) as Es.
  { unfold sl. rewrite shape_slope_degrees; congruence. }
  set (asp := aspect_degrees L gx gy sl).
  assert (shape asp = shape dem) as Ea.
  { unfold asp. rewrite shape_aspect_degrees; congruence. }
  assert (size sl <> 0%nat) as NZs by (by rewrite (size_shape sl dem)).
  assert (size asp <> 0%nat) as NZa by (by rewrite (size_shape asp dem)).
  unfold np_nanmin, np_nanmax.
  destruct (reduce_Returned fmin dem NZ) as [? ->].
  destruct (reduce_Returned fmax dem NZ) as [? ->].
  destruct (reduce_Returned fmin sl NZs) as [? ->].
  destruct (reduce_Returned fmax sl NZs) as [? ->].
  destruct (reduce_Returned fmin asp NZa) as [? ->].
  destruct (reduce_Returned fmax asp NZa) as [? ->].
  cbn [bind]. rewrite !shape_amap. done.
Qed.

(** C5, as stated, fails: a cell size of 0 and a cell size of -10 are both
    accepted, and the engine returns output (all NaN for 0). *)
Lemma cell_size_not_checked :
  fle (of_int 0) (of_int 0) = true /\ flt (of_int (-10)) (of_int 0) = true /\
  calculate_slope_aspect sector_libm flat_dem (of_int 0)
    = Returned (amap (fun _ => nan) flat_dem, amap (fun _ => nan) flat_dem) /\
  calculate_slope_aspect sector_libm flat_dem (of_int (-10))
    = Returned (amap (fun _ => S754_zero false) flat_dem,
                amap (fun _ => of_int (-1)) flat_dem).
Proof. repeat split; vm_compute; reflexivity. Qed.

Lemma astype_float32_minus_1 : astype_float32 (of_int (-1)) = of_int (-1).
Proof. reflexivity. Qed.

(** C7.  Wherever the computed slope is below 1 degree, the aspect written
    is the sentinel -1, whatever the gradients and the bearing are. *)
Theorem flat_cell_override (L : libm) (dem : grid float) (cell_size : float)
    (slope aspect : grid float) (i j : nat) (x : float) :
  calculate_slope_aspect L dem cell_size = Returned (slope, aspect) ->
  cell dem i j = Some x ->
  flt (slope_of L (dz_dx_at dem cell_size i j) (dz_dy_at dem cell_size i j)) (of_int 1)
    = true ->
  cell aspect i j = Some (of_int (-1)).
Proof.
  intros H Hc Hf.
  destruct (calculate_slope_aspect_cell L dem cell_size slope aspect i j x H Hc) as [_ Ha].
  rewrite Ha. unfold aspect_of. rewrite Hf. by rewrite astype_float32_minus_1.
Qed.

Lemma flat_cell_override_witness :
  cell (amap (fun _ : float => of_int (-1)) flat_dem) 1 1 = Some (of_int (-1)).
Proof.
  apply (flat_cell_override sector_libm flat_dem (of_int 10)
           (amap (fun _ => S754_zero false) flat_dem) _ 1 1 (of_int 100));
    vm_compute; reflexivity.
Defined.

Lemma nan_slope_cell L dem cell_size slope aspect i j x :
  libm_ok L ->
  calculate_slope_aspect L dem cell_size = Returned (slope, aspect) ->
  cell dem i j = Some x ->
  is_nan (slope_of L (dz_dx_at dem cell_size i j) (dz_dy_at dem cell_size i j)) = true ->
  cell slope i j = Some nan /\ cell aspect i j = Some nan.
Proof.
  intros OK H Hc Hn.
  destruct (calculate_slope_aspect_cell L dem cell_size slope aspect i j x H Hc) as [Hs Ha].
  rewrite Hs, Ha, (aspect_of_nan L _ _ OK Hn), (is_nan_eq _ Hn). done.
Qed.

(** C10.  NoData wins over the flat-cell override: where the computed slope
    is NaN the test [slope < 1] is false, and the aspect written is NaN,
    not -1. *)
Theorem nodata_precedes_flat_override (L : libm) (dem : grid float) (cell_size : float)
    (slope aspect : grid float) (i j : nat) (x : float) :
  libm_ok L ->
  calculate_slope_aspect L dem cell_size = Returned (slope, aspect) ->
  cell dem i j = Some x ->
  is_nan (slope_of L (dz_dx_at dem cell_size i j) (dz_dy_at dem cell_size i j)) = true ->
  flt (slope_of L (dz_dx_at dem cell_size i j) (dz_dy_at dem cell_size i j)) (of_int 1)
    = false /\
  cell slope i j = Some nan /\ cell aspect i j = Some nan.
Proof.
  intros OK H Hc Hn. split.
  - rewrite (is_nan_eq _ Hn). reflexivity.
  - by apply (nan_slope_cell L dem cell_size slope aspect i j x).
Qed.

Lemma nodata_precedes_flat_override_witness :
  flt (slope_of sector_libm (dz_dx_at hole_dem (of_int 10) 0 0)
         (dz_dy_at hole_dem (of_int 10) 0 0)) (of_int 1) = false /\
  cell hole_slope 0 0 = Some nan /\ cell hole_aspect 0 0 = Some nan.
Proof.
  apply (nodata_precedes_flat_override sector_libm hole_dem (of_int 10)
           hole_slope hole_aspect 0 0 (of_int 100) sector_libm_ok);
    vm_compute; reflexivity.
Defined.

(** A NaN under a weight that takes part makes the whole sum NaN. *)
Lemma correlate_fold_nan input i j fp acc :
  is_nan acc = true ->
  is_nan (fold_left (fun tmp '(di, dj, w) => fadd tmp (fmul w (ndimage.read input i j di dj)))
            fp acc) = true.
Proof.
  revert acc. induction fp as [|[[di dj] w] fp IH]; intros acc H; simpl; [done|].
  apply IH. by apply SFadd_nan_l.
Qed.

Lemma correlate_point_nan input fp i j di dj w :
  (di, dj, w) ∈ fp -> is_nan (ndimage.read input i j di dj) = true ->
  is_nan (ndimage.correlate_point input fp i j) = true.
Proof.
  unfold ndimage.correlate_point. generalize (S754_zero false).
  induction fp as [|[[di' dj'] w'] fp IH]; intros acc Hin Hn; [by apply elem_of_nil in Hin|].
  apply elem_of_cons in Hin as [E|Hin]; simpl.
  - injection E as <- <- <-. apply correlate_fold_nan.
    apply SFadd_nan_r, SFmul_nan_r, Hn.
  - by apply IH.
Qed.

(** C8, as the code has it.  A NaN elevation cell makes both outputs NaN
    at every position from which one of the two kernels reads it (through
    the boundary reflection) with a weight that takes part in the sum. *)
Theorem nodata_propagates_along_footprint (L : libm) (dem : grid float)
    (cell_size : float) (slope aspect : grid float) (i j : nat) (x : float)
    (di dj : Z) (w : float) :
  libm_ok L ->
  calculate_slope_aspect L dem cell_size = Returned (slope, aspect) ->
  cell dem i j = Some x ->
  (di, dj, w) ∈ ndimage.footprint (reverse (reverse <$> kernel horn_x cell_size)) \/
  (di, dj, w) ∈ ndimage.footprint (reverse (reverse <$> kernel horn_y cell_size)) ->
  is_nan (ndimage.read dem (Z.of_nat i) (Z.of_nat j) di dj) = true ->
  cell slope i j = Some nan /\ cell aspect i j = Some nan.
Proof.
  intros OK H Hc Hin Hn.
  assert (is_nan (slope_of L (dz_dx_at dem cell_size i j) (dz_dy_at dem cell_size i j))
          = true) as Hs.
  { rewrite (slope_of_nan L _ _ OK). unfold dz_dx_at, dz_dy_at.
    destruct Hin as [Hin|Hin].
    - by rewrite (correlate_point_nan _ _ _ _ _ _ _ Hin Hn).
    - rewrite (correlate_point_nan _ _ _ _ _ _ _ Hin Hn). apply orb_true_r. }
  by apply (nan_slope_cell L dem cell_size slope aspect i j x).
Qed.

(** The offsets read for a cell size of 10: the six cells left and right
    for the x kernel, the six above and below for the y kernel; never the
    centre. *)
Lemma footprint_offsets :
  (fun t : Z * Z * float => t.1) <$>
    ndimage.footprint (reverse (reverse <$> kernel horn_x (of_int 10)))
    = [(-1, -1); (-1, 1); (0, -1); (0, 1); (1, -1); (1, 1)] /\
  (fun t : Z * Z * float => t.1) <$>
    ndimage.footprint (reverse (reverse <$> kernel horn_y (of_int 10)))
    = [(-1, -1); (-1, 0); (-1, 1); (1, -1); (1, 0); (1, 1)].
Proof. split; vm_compute; reflexivity. Qed.

Lemma nodata_propagates_along_footprint_witness :
  cell hole_slope 0 0 = Some nan /\ cell hole_aspect 0 0 = Some nan.
Proof.
  apply (nodata_propagates_along_footprint sector_libm hole_dem (of_int 10)
           hole_slope hole_aspect 0 0 (of_int 100) 1 1
           (S754_finite true 7205759403792794 (-59)) sector_libm_ok).
  - vm_compute. reflexivity.
  - reflexivity.
  - left. vm_compute. do 5 (apply elem_of_cons; right). apply elem_of_cons. by left.
  - vm_compute. reflexivity.
Defined.

(** C8, as stated, fails: the NoData cell in the middle of [hole_dem] gets
    a slope of 0 and the flat sentinel, not NaN. *)
Lemma nodata_cell_not_propagated :
  cell hole_dem 1 1 = Some nan /\
  calculate_slope_aspect sector_libm hole_dem (of_int 10)
    = Returned (hole_slope, hole_aspect) /\
  cell hole_slope 1 1 = Some (S754_zero false) /\
  cell hole_aspect 1 1 = Some (of_int (-1)).
Proof. repeat split; vm_compute; reflexivity. Qed.

(** ** The risk model *)

Lemma slope_risk_range x :
  valid x = true -> 0 <= slope_risk_of x <= 5 /\ (slope_risk_of x = 0 <-> is_nan x = true).
Proof.
  intros Vx. destruct (is_finite x) eqn:Fx.
  - pose proof (slope_risk_finite_range x Vx Fx). rewrite (is_finite_not_nan x Fx).
    split; [lia|]. split; [lia|discriminate].
  - destruct x as [s|[]| |s m e]; try discriminate; vm_compute; intuition congruence.
Qed.

Lemma aspect_risk_range x :
  valid x = true -> 0 <= aspect_risk_of x <= 5 /\ (aspect_risk_of x = 0 <-> is_nan x = true).
Proof.
  intros Vx. destruct (is_finite x) eqn:Fx.
  - pose proof (aspect_risk_finite_range x Vx Fx). rewrite (is_finite_not_nan x Fx).
    split; [lia|]. split; [lia|discriminate].
  - destruct x as [s|[]| |s m e]; try discriminate; vm_compute; intuition congruence.
Qed.

Lemma weighted_risk_range W x y z :
  0 <= weighted_risk_of W x y z <= 5 /\
  (weighted_risk_of W x y z = 0 <-> x = 0 \/ y = 0 \/ z = 0).
Proof.
  unfold weighted_risk_of, clip_u8.
  destruct (Z.eqb_spec 0 x), (Z.eqb_spec 0 y), (Z.eqb_spec 0 z); simpl; lia.
Qed.

(** C9.  Every operation of the risk engine writes values in 0..5 only,
    and writes 0 only for NoData input: a NaN for a reclassifier (hence
    1..5 for every other value), a 0 in one of the layers for the
    overlay. *)
Theorem risk_grid_range (slope aspect : grid float) (s a v : grid Z) (i j : nat)
    (xs xa : float) (x y z : Z) :
  cell slope i j = Some xs -> valid xs = true ->
  cell aspect i j = Some xa -> valid xa = true ->
  cell s i j = Some x -> cell a i j = Some y -> cell v i j = Some z ->
  (exists r, cell (reclassify_slope slope) i j = Some r /\
             0 <= r <= 5 /\ (r = 0 <-> is_nan xs = true)) /\
  (exists r, cell (reclassify_aspect aspect) i j = Some r /\
             0 <= r <= 5 /\ (r = 0 <-> is_nan xa = true)) /\
  (exists r, cell (calculate_weighted_risk s a v) i j = Some r /\
             0 <= r <= 5 /\ (r = 0 <-> x = 0 \/ y = 0 \/ z = 0)).
Proof.
  intros Hs Vs Ha Va Hx Hy Hz. repeat split.
  - exists (slope_risk_of xs). rewrite reclassify_slope_amap, cell_amap, Hs.
    split; [done|]. by apply slope_risk_range.
  - exists (aspect_risk_of xa). rewrite reclassify_aspect_amap, cell_amap, Ha.
    split; [done|]. by apply aspect_risk_range.
  - exists (weighted_risk_of WEIGHTS x y z). unfold calculate_weighted_risk.
    rewrite cell_calculate_weighted_risk_with, Hx, Hy, Hz.
    split; [done|]. apply weighted_risk_range.
Qed.

Lemma risk_grid_range_witness :
  (exists r, cell (reclassify_slope [[of_int 40; nan]]) 0 1 = Some r /\
             0 <= r <= 5 /\ (r = 0 <-> is_nan nan = true)) /\
  (exists r, cell (reclassify_aspect [[of_int 180; of_int (-1)]]) 0 1 = Some r /\
             0 <= r <= 5 /\ (r = 0 <-> is_nan (of_int (-1)) = true)) /\
  (exists r, cell (calculate_weighted_risk [[5; 0]] [[5; 2]] [[1; 3]]) 0 1 = Some r /\
             0 <= r <= 5 /\ (r = 0 <-> 0 = 0 \/ 2 = 0 \/ 3 = 0)).
Proof.
  apply (risk_grid_range [[of_int 40; nan]] [[of_int 180; of_int (-1)]]
           [[5; 0]] [[5; 2]] [[1; 3]] 0 1 nan (of_int (-1)) 0 2 3); reflexivity.
Defined.

(** C1.  The overlay at a cell: 0 as soon as one of the three layers is 0
    there, whatever the others and the arithmetic give; otherwise, for
    layers in 1..5, the weighted sum of the three values rounded to the
    nearest integer and clamped to 1..5.  The sum is the one computed in
    double precision with the weights of the module; it rounds like the
    exact sum with the decimal weights 0.45, 0.25 and 0.30. *)
Theorem weighted_overlay_postcondition (s a v : grid Z) (i j : nat) (x y z : Z) :
  cell s i j = Some x -> cell a i j = Some y -> cell v i j = Some z ->
  cell (calculate_weighted_risk s a v) i j = Some (weighted_risk_of WEIGHTS x y z) /\
  (x = 0 \/ y = 0 \/ z = 0 -> weighted_risk_of WEIGHTS x y z = 0) /\
  (1 <= x <= 5 -> 1 <= y <= 5 -> 1 <= z <= 5 ->
   weighted_risk_of WEIGHTS x y z
     = clamp (Qround_half_even (F2Q (raw_of WEIGHTS x y z))) 1 5 /\
   weighted_risk_of WEIGHTS x y z
     = clamp (Qround_half_even ((45 * x + 25 * y + 30 * z) # 100)) 1 5).
Proof.
  intros Hx Hy Hz. split; [|split].
  - unfold calculate_weighted_risk.
    by rewrite cell_calculate_weighted_risk_with, Hx, Hy, Hz.
  - intros H. by apply weighted_risk_range.
  - intros Rx Ry Rz.
    assert (x = 1 \/ x = 2 \/ x = 3 \/ x = 4 \/ x = 5) as Cx by lia.
    assert (y = 1 \/ y = 2 \/ y = 3 \/ y = 4 \/ y = 5) as Cy by lia.
    assert (z = 1 \/ z = 2 \/ z = 3 \/ z = 4 \/ z = 5) as Cz by lia.
    clear Hx Hy Hz Rx Ry Rz.
    destruct Cx as [->|[->|[->|[->| ->]]]], Cy as [->|[->|[->|[->| ->]]]],
             Cz as [->|[->|[->|[->| ->]]]]; vm_compute; split; reflexivity.
Qed.

Lemma weighted_overlay_postcondition_witness :
  cell (calculate_weighted_risk [[1]] [[2]] [[3]]) 0 0 = Some 2.
Proof.
  destruct (weighted_overlay_postcondition [[1]] [[2]] [[3]] 0 0 1 2 3
              eq_refl eq_refl eq_refl) as [H _].
  exact H.
Defined.

(** C2, as stated, fails: layers 2, 4 and 2 give a weighted sum of exactly
    2.5, which half-away-from-zero would send to 3; [np.round] sends it to
    2, and 2 is the risk written. *)
Lemma round_half_away_refuted :
  (F2Q (raw_of WEIGHTS 2 4 2) == 5 # 2)%Q /\
  Qround_half_away (F2Q (raw_of WEIGHTS 2 4 2)) = 3 /\
  np_round (raw_of WEIGHTS 2 4 2) = of_int 2 /\
  np_round (raw_of WEIGHTS 2 4 2) <> of_int 3 /\
  calculate_weighted_risk [[2]] [[4]] [[2]] = [[2]].
Proof. repeat split; try (vm_compute; reflexivity). vm_compute. discriminate. Qed.

(** ** Ranges of the terrain outputs *)

Lemma prec_pos : 0 < prec.
Proof. reflexivity. Qed.

Lemma emin64_neg : SpecFloat.emin prec emax <= 0.
Proof. by vm_compute. Qed.

(** Replaces a small integer constant by its datum. *)
Ltac eval_int n :=
  let c := eval vm_compute in (of_int n) in change (of_int n) with c in *.

Lemma fle_Q x y :
  valid x = true -> valid y = true -> is_finite x = true -> is_finite y = true ->
  fle x y = true -> (F2Q x <= F2Q y)%Q.
Proof.
  intros Vx Vy Fx Fy H. unfold fle, SFleb in H. rewrite compare64 in H by done.
  destruct (Qcompare_spec (F2Q x) (F2Q y)); [lra|lra|discriminate].
Qed.

Lemma flt_Q x y :
  valid x = true -> valid y = true -> is_finite x = true -> is_finite y = true ->
  flt x y = true -> (F2Q x < F2Q y)%Q.
Proof.
  intros Vx Vy Fx Fy H. unfold flt, SFltb in H. rewrite compare64 in H by done.
  destruct (Qcompare_spec (F2Q x) (F2Q y)); [discriminate|lra|discriminate].
Qed.

Lemma fgt_Q x y :
  valid x = true -> valid y = true -> is_finite x = true -> is_finite y = true ->
  fgt x y = true -> (F2Q y < F2Q x)%Q.
Proof.
  intros Vx Vy Fx Fy H. unfold fgt in H. rewrite compare64 in H by done.
  destruct (Qcompare_spec (F2Q x) (F2Q y)); [discriminate|discriminate|lra].
Qed.

Lemma degrees_valid t : valid t = true -> valid (degrees t) = true.
Proof.
  intros V. destruct t as [s|s| |s m e]; try reflexivity.
  apply (SFmul_finite_valid prec emax emin64_neg); [exact V|reflexivity].
Qed.

Lemma degrees_bound r :
  valid r = true -> is_nan r = false -> fle (fabs r) PI = true ->
  is_finite (degrees r) = true /\ (F2Q (SFabs (degrees r)) <= 180)%Q.
Proof.
  intros V N H. destruct r as [s|s| |s m e]; try discriminate.
  - split; [reflexivity|]. cbn. lra.
  - apply fle_Q in H; try reflexivity; [|exact V].
    destruct (SFmul_finite_bound prec emax prec_pos emin64_neg s m e false
                8063664102031864 (-47) 6333186975989760 (-45) V eq_refl eq_refl) as [F B].
    + eapply Qle_trans.
      * apply Qmult_le_compat_r; [exact H|]. by vm_compute.
      * by vm_compute.
    + split; [exact F|]. eapply Qle_trans; [exact B|]. by vm_compute.
Qed.

Lemma F2Q_abs_bounds d (q : Q) :
  is_finite d = true -> (F2Q (SFabs d) <= q)%Q -> (- q <= F2Q d)%Q /\ (F2Q d <= q)%Q.
Proof.
  intros F H. pose proof (F2Q_abs_nonneg d) as N.
  destruct d as [s|s| |[] m e]; try discriminate; cbn [SFabs F2Q] in *; try lra.
  assert (F2Q (S754_finite true m e) == - F2Q (SFabs (S754_finite true m e)))%Q as E
    by (by apply F2Q_sign_true).
  cbn [SFabs F2Q] in E. rewrite E. cbn [cond_Zopp] in *. lra.
Qed.

Lemma sub90_bound d :
  is_finite d = true -> (F2Q (SFabs d) <= 180)%Q ->
  let a := fsub (of_int 90) d in
  is_finite a = true /\ valid a = true /\ (- (90) <= F2Q a)%Q /\ (F2Q a <= 270)%Q.
Proof.
  intros F H. destruct (F2Q_abs_bounds d 180 F H) as [Hlo Hhi]. clear H.
  unfold fsub. eval_int 90.
  destruct d as [s|s| |s m e]; try discriminate.
  { cbn [SFsub]. repeat split; by vm_compute. }
  destruct (SFsub_finite_value prec emax false 6333186975989760 (-46) s m e) as [E V].
  cbv zeta in E, V. rewrite E. clear E.
  match type of V with (inject_Z ?M0 * 2 ^ ?ez0 == _)%Q =>
    set (M := M0) in *; set (ez := ez0) in * end.
  assert (F2Q (S754_finite false 6333186975989760 (-46)) == 90)%Q as E90 by reflexivity.
  rewrite E90 in V.
  destruct (dyadic_sign M ez _ V) as (Sp & Sn & Sz).
  destruct (Z.lt_trichotomy M 0) as [L|[Z|G]].
  - destruct (binary_normalize_neg_bound prec emax prec_pos M ez 6333186975989760 (-46) L eq_refl)
      as (Fi & Va & _ & B1 & B2).
    { rewrite inject_Z_opp.
      assert (- inject_Z M * 2 ^ ez == - (inject_Z M * 2 ^ ez))%Q as -> by ring.
      rewrite V, E90. lra. }
    rewrite E90 in B2. repeat split; try done; lra.
  - rewrite Z. repeat split; by vm_compute.
  - destruct (binary_normalize_pos_bound prec emax prec_pos M ez 4749890231992320 (-44) G eq_refl)
      as (Fi & Va & _ & B1 & B2).
    { rewrite V. assert (F2Q (S754_finite false 4749890231992320 (-44)) == 270)%Q as ->
        by reflexivity. lra. }
    assert (F2Q (S754_finite false 4749890231992320 (-44)) == 270)%Q as E270 by reflexivity.
    rewrite E270 in B2. repeat split; try done; lra.
Qed.

Lemma add360_bound m e :
  (- (90) <= F2Q (S754_finite true m e))%Q ->
  let b := fadd (S754_finite true m e) (of_int 360) in
  is_finite b = true /\ valid b = true /\ (0 <= F2Q b)%Q /\ (F2Q b <= 360)%Q.
Proof.
  intros H. unfold fadd. eval_int 360.
  destruct (SFadd_finite_value prec emax true m e false 6333186975989760 (-44)) as [E V].
  cbv zeta in E, V. rewrite E. clear E.
  match type of V with (inject_Z ?M0 * 2 ^ ?ez0 == _)%Q =>
    set (M := M0) in *; set (ez := ez0) in * end.
  assert (F2Q (S754_finite false 6333186975989760 (-44)) == 360)%Q as E360 by reflexivity.
  rewrite E360 in V.
  assert (F2Q (S754_finite true m e) < 0)%Q as Hn.
  { pose proof (Qdyadic_pos m e) as P. cbn [F2Q cond_Zopp]. rewrite inject_Z_opp.
    assert (- inject_Z (Zpos m) * 2 ^ e == - (inject_Z (Zpos m) * 2 ^ e))%Q as -> by ring. lra. }
  destruct (dyadic_sign M ez _ V) as (Sp & _ & _).
  assert (0 < M) as G by (apply Sp; lra).
  destruct (binary_normalize_pos_bound prec emax prec_pos M ez 6333186975989760 (-44) G eq_refl)
    as (Fi & Va & _ & B1 & B2).
  { rewrite V, E360. lra. }
  rewrite E360 in B2. done.
Qed.

Lemma flt_zero a :
  flt a (S754_zero false) = true -> a = ninf \/ exists m e, a = S754_finite true m e.
Proof.
  destruct a as [s|[]| |[] m e]; try discriminate; intros _; [by left|right; eauto].
Qed.

(** The compass bearing of gradients that are not NaN lies in [0, 360]. *)
Lemma bearing_bound L dx dy :
  libm_ok L -> is_nan dx = false -> is_nan dy = false ->
  let b := bearing_of L dx dy in
  is_finite b = true /\ valid b = true /\ (0 <= F2Q b)%Q /\ (F2Q b <= 360)%Q.
Proof.
  intros OK Nx Ny. unfold bearing_of.
  set (r := arctan2 L dy (fneg dx)).
  assert (is_nan r = false) as Nr.
  { unfold r. rewrite (arctan2_nan L OK), Ny. by destruct dx. }
  destruct (degrees_bound r (arctan2_valid L OK _ _) Nr (arctan2_range L OK _ _ Nr)) as [Fd Bd].
  destruct (sub90_bound (degrees r) Fd Bd) as (Fa & Va & Lo & Hi). cbv zeta in *.
  set (a := fsub (of_int 90) (degrees r)) in *.
  change (of_int 0) with (S754_zero false).
  destruct (flt a (S754_zero false)) eqn:Fl.
  - destruct (flt_zero a Fl) as [E|(m & e & E)]; rewrite E in *; [discriminate|].
    by apply add360_bound.
  - repeat split; try done; [|lra].
    destruct a as [s|s| |[] m e]; try discriminate; cbn [F2Q]; try lra.
    apply Qlt_le_weak, Qdyadic_pos.
Qed.

(** Conversion to [float32] keeps a value inside an interval whose ends
    are [float32] data. *)
Lemma astype_float32_bound x m32 e32 m64 e64 :
  SpecFloat.valid_binary 24 128 (S754_finite false m32 e32) = true ->
  valid (S754_finite false m64 e64) = true ->
  (F2Q (S754_finite false m32 e32) == F2Q (S754_finite false m64 e64))%Q ->
  is_finite x = true -> (0 <= F2Q x)%Q -> (F2Q x <= F2Q (S754_finite false m64 e64))%Q ->
  let y := astype_float32 x in
  is_finite y = true /\ valid y = true /\ (0 <= F2Q y)%Q /\
  (F2Q y <= F2Q (S754_finite false m64 e64))%Q.
Proof.
  intros V32 V64 E F Lo Hi. destruct x as [s|s| |s m e]; try discriminate.
  { cbn [astype_float32 F2Q cond_Zopp]. repeat split; try done.
    all: apply Qlt_le_weak, Qdyadic_pos. }
  pose proof (F2Q_finite_nonneg s m e Lo) as ->.
  cbn [astype_float32].
  destruct (binary_round_bound 24 128 ltac:(done) false m e m32 e32 V32) as [F1 B1].
  { cbn [F2Q cond_Zopp] in *. rewrite E. exact Hi. }
  pose proof (binary_round_sign 24 128 false m e) as S1.
  destruct (binary_round 24 128 false m e) as [s1|s1| |s1 m1 e1]; try discriminate.
  { cbn [widen F2Q cond_Zopp]. repeat split; try done.
    all: apply Qlt_le_weak, Qdyadic_pos. }
  cbn [has_sign] in S1. subst s1. cbn [widen].
  destruct (binary_round_bound prec emax prec_pos false m1 e1 m64 e64 V64) as [F2 B2].
  { cbn [SFabs F2Q cond_Zopp] in *. rewrite <- E. exact B1. }
  pose proof (binary_round_sign prec emax false m1 e1) as S2.
  pose proof (binary_round_valid prec emax false m1 e1) as V2.
  rewrite (F2Q_sign_false _ S2). repeat split; try done. apply F2Q_abs_nonneg.
Qed.

Lemma astype_float32_nan x : is_nan x = true -> astype_float32 x = nan.
Proof. by destruct x. Qed.

(** The clipped slope is NaN or lies in [0, 90]. *)
Lemma slope_of_bound L dx dy :
  libm_ok L ->
  let sl := slope_of L dx dy in
  is_nan sl = true \/
  (is_finite sl = true /\ valid sl = true /\ (0 <= F2Q sl)%Q /\ (F2Q sl <= 90)%Q).
Proof.
  intros OK. unfold slope_of.
  set (x := degrees (arctan L (fsqrt (fadd (square dx) (square dy))))).
  assert (valid x = true) as Vx by apply degrees_valid, (arctan_valid L OK).
  unfold clip. eval_int 0. eval_int 90.
  destruct (is_nan x) eqn:Nx; [by left; rewrite Nx|right].
  destruct (fgt x (S754_zero false)) eqn:G.
  - rewrite Nx. destruct (flt x (S754_finite false 6333186975989760 (-46))) eqn:Lt.
    + assert (is_finite x = true) as Fx by (by destruct x as [s|[]| |s m e]).
      apply fgt_Q in G; try done. apply flt_Q in Lt; try done.
      assert (F2Q (S754_finite false 6333186975989760 (-46)) == 90)%Q as E by reflexivity.
      rewrite E in Lt. change (F2Q (S754_zero false)) with 0%Q in G.
      repeat split; try done; lra.
    + repeat split; by vm_compute.
  - cbn [is_nan]. repeat split; by vm_compute.
Qed.

(** ** The range of what the engine writes *)

Lemma cell_shape {A B} (g : grid A) (h : grid B) i j s :
  shape g = shape h -> cell g i j = Some s -> exists x, cell h i j = Some x.
Proof.
  unfold shape, cell. intros E H.
  destruct (g !! i) as [r|] eqn:Hr; [|done]. simpl in H.
  assert ((length <$> h) !! i = Some (length r)) as Hl.
  { rewrite <- E, list_lookup_fmap, Hr. done. }
  rewrite list_lookup_fmap in Hl. destruct (h !! i) as [r'|]; [|done].
  simpl in *. injection Hl as Hl.
  apply lookup_lt_Some in H. rewrite <- Hl in H.
  by apply lookup_lt_is_Some_2 in H as [x ->]; exists x.
Qed.

Lemma calculate_slope_aspect_shape L dem cell_size slope aspect :
  calculate_slope_aspect L dem cell_size = Returned (slope, aspect) ->
  shape slope = shape dem /\ shape aspect = shape dem.
Proof.
  intros H. unfold calculate_slope_aspect in H. cbv zeta in H.
  repeat (apply bind_Returned in H as (? & _ & H)).
  set (gx := ndimage.convolve dem (kernel horn_x cell_size)) in *.
  set (gy := ndimage.convolve dem (kernel horn_y cell_size)) in *.
  assert (shape gx = shape dem) as Ex by apply shape_correlate.
  assert (shape gy = shape dem) as Ey by apply shape_correlate.
  assert (shape (slope_degrees L gx gy) = shape dem) as Es.
  { rewrite shape_slope_degrees; congruence. }
  assert (slope = amap astype_float32 (slope_degrees L gx gy)) as -> by congruence.
  assert (aspect = amap astype_float32 (aspect_degrees L gx gy (slope_degrees L gx gy)))
    as -> by congruence.
  rewrite !shape_amap. split; [done|]. rewrite shape_aspect_degrees; congruence.
Qed.

(** C6, as the code has it.  Every cell of the slope written is NaN or
    lies in [0, 90]; every cell of the aspect written is NaN, the sentinel
    -1, or lies in [0, 360], the upper end included: a bearing just west of
    north is rounded up to 360. *)
Theorem terrain_output_range (L : libm) (dem : grid float) (cell_size : float)
    (slope aspect : grid float) (i j : nat) (s a : float) :
  libm_ok L ->
  calculate_slope_aspect L dem cell_size = Returned (slope, aspect) ->
  cell slope i j = Some s -> cell aspect i j = Some a ->
  (is_nan s = true \/ in_closed 0 90 s) /\
  (is_nan a = true \/ a = of_int (-1) \/ in_closed 0 360 a).
Proof.
  intros OK H Hs Ha.
  destruct (calculate_slope_aspect_shape L dem cell_size slope aspect H) as [Es _].
  destruct (cell_shape slope dem i j s Es Hs) as [x Hx].
  destruct (calculate_slope_aspect_cell L dem cell_size slope aspect i j x H Hx) as [Hs' Ha'].
  rewrite Hs in Hs'. rewrite Ha in Ha'. injection Hs' as ->. injection Ha' as ->.
  set (dx := dz_dx_at dem cell_size i j). set (dy := dz_dy_at dem cell_size i j).
  assert (in_closed 0 90 (astype_float32 (of_int 0))) as Z0 by (repeat split; by vm_compute).
  split.
  - destruct (slope_of_bound L dx dy OK) as [N|(F & V & Lo & Hi)].
    + left. by rewrite (astype_float32_nan _ N).
    + right.
      assert (F2Q (S754_finite false 11796480 (-17))
              == F2Q (S754_finite false 6333186975989760 (-46)))%Q as E by (by vm_compute).
      assert (F2Q (S754_finite false 6333186975989760 (-46)) == 90)%Q as E90
        by (by vm_compute).
      destruct (astype_float32_bound (slope_of L dx dy) 11796480 (-17)
                  6333186975989760 (-46) eq_refl eq_refl E F Lo)
        as (F' & _ & Lo' & Hi'); [by rewrite E90|].
      repeat split; try done. by rewrite <- E90.
  - unfold aspect_of. destruct (flt (slope_of L dx dy) (of_int 1)) eqn:Fl.
    { right. left. reflexivity. }
    destruct (is_nan dx || is_nan dy) eqn:N.
    { left. by rewrite (bearing_of_nan L dx dy OK N). }
    apply orb_false_elim in N as [Nx Ny].
    destruct (bearing_bound L dx dy OK Nx Ny) as (F & V & Lo & Hi).
    right. right.
    assert (F2Q (S754_finite false 11796480 (-15))
            == F2Q (S754_finite false 6333186975989760 (-44)))%Q as E by (by vm_compute).
    assert (F2Q (S754_finite false 6333186975989760 (-44)) == 360)%Q as E360
      by (by vm_compute).
    destruct (astype_float32_bound (bearing_of L dx dy) 11796480 (-15)
                6333186975989760 (-44) eq_refl eq_refl E F Lo)
      as (F' & _ & Lo' & Hi'); [by rewrite E360|].
    repeat split; try done. by rewrite <- E360.
Qed.

Lemma terrain_output_range_witness :
  (is_nan (S754_zero false) = true \/ in_closed 0 90 (S754_zero false)) /\
  (is_nan (of_int (-1)) = true \/ of_int (-1) = of_int (-1) \/ in_closed 0 360 (of_int (-1))).
Proof.
  apply (terrain_output_range sector_libm flat_dem (of_int 10)
           (amap (fun _ => S754_zero false) flat_dem) (amap (fun _ => of_int (-1)) flat_dem)
           1 1 _ _ sector_libm_ok); vm_compute; reflexivity.
Defined.

(** C6, as stated, fails: around a NoData cell the engine writes NaN, which
    lies in no interval; the bearing of the double next above pi/2, a
    direction just west of north, comes out as 360; and a bearing of
    359.99999 is written, as a [float32], as 360. *)
Lemma nodata_outside_range :
  calculate_slope_aspect sector_libm hole_dem (of_int 10)
    = Returned (hole_slope, hole_aspect) /\
  cell hole_slope 0 0 = Some nan /\ ~ in_closed 0 90 nan /\
  cell hole_aspect 0 0 = Some nan /\ ~ within 0 360 nan /\ nan <> of_int (-1) /\
  (let a := fsub (of_int 90) (degrees (S754_finite false 7074237752028441 (-52))) in
   flt a (of_int 0) = true /\ fadd a (of_int 360) = of_int 360) /\
  flt (Prim2SF 359.99999) (of_int 360) = true /\
  astype_float32 (Prim2SF 359.99999) = of_int 360 /\ ~ within 0 360 (of_int 360).
Proof.
  repeat split; try (vm_compute; reflexivity); try discriminate.
  - intros (F & _). discriminate.
  - intros (F & _). discriminate.
  - intros (_ & _ & H). vm_compute in H. discriminate.
Qed.

(** ** Rounding to an integer *)

Lemma Qdyadic_eq m1 e1 m2 e2 b :
  b <= e1 -> b <= e2 ->
  (inject_Z m1 * 2 ^ e1 == inject_Z m2 * 2 ^ e2)%Q <->
  m1 * 2 ^ (e1 - b) = m2 * 2 ^ (e2 - b).
Proof.
  intros H1 H2. split.
  - intros E. apply Z.le_antisymm; apply (Qdyadic_le _ _ _ _ b); try done;
      rewrite E; apply Qle_refl.
  - intros E. apply Qle_antisym; apply (Qdyadic_le _ _ _ _ b); try done; lia.
Qed.

Lemma half_dyadic k : (inject_Z k + (1 # 2) == inject_Z (2 * k + 1) * 2 ^ (-1))%Q.
Proof.
  change (2 ^ (-1))%Q with (1 # 2)%Q. unfold Qeq, Qplus, Qmult, inject_Z. simpl. lia.
Qed.

(** The magnitude [rint] gives to a half-integer: the even neighbour. *)
Lemma rint_mag_tie m e K :
  e < 0 -> 0 <= K -> Zpos m = (2 * K + 1) * 2 ^ (- e - 1) ->
  rint_mag m e = if Z.even K then K else K + 1.
Proof.
  intros He HK Hm. unfold rint_mag.
  destruct (shr_represents (Zpos m) e (- e) ltac:(lia)) as [R _].
  destruct (shr (shr_record_of_loc (Zpos m) loc_Exact) e (- e)) as [mrs e'].
  simpl in R. replace (Z.max (- e) 0) with (- e) in R by lia.
  destruct (round_nearest_even_represents (Zpos m) (- e) mrs ltac:(lia) ltac:(lia) R)
    as (_ & _ & T).
  assert (0 < 2 ^ (- e - 1)) as P by (apply Z.pow_pos_nonneg; lia).
  assert (2 ^ (- e) = 2 * 2 ^ (- e - 1)) as E2.
  { rewrite <- Z.pow_succ_r by lia. f_equal. lia. }
  assert (Zpos m / 2 ^ (- e) = K) as Ed.
  { symmetry. apply (Z.div_unique_pos _ _ _ (2 ^ (- e - 1))); lia. }
  assert (Zpos m mod 2 ^ (- e) = 2 ^ (- e - 1)) as Er.
  { symmetry. apply (Z.mod_unique_pos _ _ K); lia. }
  rewrite Ed, Er in T. apply T. lia.
Qed.

(** C2, as the code has it.  [np.round] rounds half to even: a value whose
    fractional part is exactly 0.5 goes to the even one of its two
    neighbours (2.5 to 2, 3.5 to 4), whatever its sign. *)
Theorem np_round_half_even (x : float) (k : Z) :
  valid x = true -> is_finite x = true ->
  (F2Q x == inject_Z k + (1 # 2))%Q ->
  is_finite (np_round x) = true /\
  (F2Q (np_round x) == inject_Z (if Z.even k then k else k + 1))%Q.
Proof.
  intros V F H. rewrite half_dyadic in H.
  destruct x as [s|s| |s m e]; try discriminate.
  { exfalso. cbn [F2Q] in H.
    assert (0 == inject_Z 0 * 2 ^ 0)%Q as E0 by reflexivity. rewrite E0 in H.
    apply (Qdyadic_eq _ _ _ _ (-1)) in H; [|lia..]. simpl in H. lia. }
  cbn [F2Q] in H.
  destruct (Z_lt_le_dec e 0) as [He|He].
  2:{ exfalso. apply (Qdyadic_eq _ _ _ _ (-1)) in H; [|lia..].
      replace (e - -1) with (Z.succ e) in H by lia. rewrite Z.pow_succ_r in H by lia.
      simpl (2 ^ (-1 - -1)) in H. revert H.
      generalize (2 ^ e). intros t H. destruct s; cbn [cond_Zopp] in H; nia. }
  apply (Qdyadic_eq _ _ _ _ e) in H; [|lia..].
  replace (e - e) with 0 in H by lia. rewrite Z.mul_1_r in H.
  replace (-1 - e) with (- e - 1) in H by lia.
  set (K := if s then - k - 1 else k).
  assert (0 < 2 ^ (- e - 1)) as P by (apply Z.pow_pos_nonneg; lia).
  assert (Zpos m = (2 * K + 1) * 2 ^ (- e - 1)) as Hm.
  { unfold K. destruct s; cbn [cond_Zopp] in H; lia. }
  assert (0 <= K) as HK by nia.
  unfold np_round. destruct (Z.leb_spec 0 e) as [|_]; [lia|].
  rewrite (rint_mag_tie m e K He HK Hm).
  assert (Z.even K = if s then negb (Z.even k) else Z.even k) as EK.
  { unfold K. destruct s; [|done].
    replace (- k - 1) with (- (k + 1)) by lia.
    rewrite Z.even_opp, Z.even_add. by destruct (Z.even k). }
  set (n := if Z.even K then K else K + 1).
  assert (0 <= n) as Hn by (unfold n; destruct (Z.even K); lia).
  assert ((if s then - n else n) = if Z.even k then k else k + 1) as En.
  { unfold n. rewrite EK. unfold K. destruct s, (Z.even k); simpl; lia. }
  destruct n as [|n'|n'] eqn:Dn; [| |lia].
  { split; [done|]. cbn [F2Q]. rewrite <- En. by destruct s. }
  (* the rounded magnitude has at most 53 digits, so it is a double *)
  apply (valid_finite_inv prec emax prec_pos) in V as (_ & Vm & _).
  assert (Zpos n' <= 2 ^ 52) as Hb.
  { assert (2 ^ 1 <= 2 ^ (- e)) as P1 by (apply Z.pow_le_mono_r; lia).
    assert (2 ^ (- e) = 2 * 2 ^ (- e - 1)) as E2.
    { rewrite <- Z.pow_succ_r by lia. f_equal. lia. }
    change (2 ^ prec) with (2 * 2 ^ 52) in Vm.
    assert (K + 1 <= 2 ^ 52); [nia|].
    rewrite <- Dn. unfold n. destruct (Z.even K); lia. }
  assert (Zpos (digits2_pos n') <= 53) as Hd.
  { change (Zpos (digits2_pos n')) with (Zdigits2 (Zpos n')).
    apply Zdigits2_le; [lia..|]. change (2 ^ 53) with (2 * 2 ^ 52). lia. }
  destruct (binary_round_exact prec emax s n' 0) as (Fi & Si & Vi).
  { unfold SpecFloat.fexp, SpecFloat.emin, prec, emax. lia. }
  { unfold SpecFloat.fexp, SpecFloat.emin, prec, emax. lia. }
  split; [done|]. rewrite <- En.
  destruct s.
  - rewrite (F2Q_sign_true _ Si), Vi, inject_Z_opp. change (2 ^ 0)%Q with 1%Q. ring.
  - rewrite (F2Q_sign_false _ Si), Vi. change (2 ^ 0)%Q with 1%Q. ring.
Qed.

Lemma np_round_half_even_witness :
  is_finite (np_round (raw_of WEIGHTS 2 4 2)) = true /\
  (F2Q (np_round (raw_of WEIGHTS 2 4 2)) == inject_Z 2)%Q.
Proof.
  apply (np_round_half_even (raw_of WEIGHTS 2 4 2) 2); vm_compute; reflexivity.
Defined.

Lemma np_round_examples :
  np_round (Prim2SF 0.5) = of_int 0 /\ np_round (Prim2SF 1.5) = of_int 2 /\
  np_round (Prim2SF 2.5) = of_int 2 /\ np_round (Prim2SF 3.5) = of_int 4 /\
  np_round (Prim2SF 4.5) = of_int 4 /\ np_round (Prim2SF (-2.5)) = of_int (-2) /\
  np_round (Prim2SF 2.4) = of_int 2 /\ np_round (Prim2SF 2.6) = of_int 3 /\
  np_round (Prim2SF 1.85) = of_int 2 /\ np_round (Prim2SF 3.8) = of_int 4.
Proof. repeat split; vm_compute; reflexivity. Qed.

(** On every weighted sum of layers in 0..5, [np_round] is what the C
    library's add-and-subtract [rint] computes. *)
Lemma np_round_two52 :
  forallb (fun s => forallb (fun a => forallb (fun v =>
      match np_round (raw_of WEIGHTS s a v), rint_two52 (raw_of WEIGHTS s a v) with
      | x, y => feq x y
      end) [0; 1; 2; 3; 4; 5]) [0; 1; 2; 3; 4; 5]) [0; 1; 2; 3; 4; 5] = true.
Proof. vm_compute. reflexivity. Qed.

(** ** Worked examples *)

(** The constants are the doubles the sources denote: the weights are the
    nearest to 0.45, 0.25 and 0.30 (and the correctly rounded quotients),
    [RAD2DEG] is the quotient of 180 by the double pi. *)
Lemma constants_literals :
  WEIGHTS = {| w_slope := Prim2SF 0.45; w_aspect := Prim2SF 0.25;
               w_vegetation := Prim2SF 0.30 |} /\
  WEIGHTS = {| w_slope := fdiv (of_int 45) (of_int 100);
               w_aspect := fdiv (of_int 25) (of_int 100);
               w_vegetation := fdiv (of_int 30) (of_int 100) |} /\
  PI = Prim2SF 3.141592653589793 /\ RAD2DEG = fdiv (of_int 180) PI /\
  RAD2DEG = Prim2SF 57.29577951308232 /\ ndimage.DBL_EPSILON = Prim2SF 0x1p-52.
Proof. repeat split; vm_compute; reflexivity. Qed.

(** A level DEM: slope 0 and the flat sentinel everywhere, hence slope risk
    1 and aspect risk 2; with the placeholder vegetation layer the risk is
    round(0.45 + 0.5 + 0.9) = 2 everywhere. *)
Lemma level_ground :
  calculate_slope_aspect sector_libm flat_dem (of_int 10)
    = Returned (amap (fun _ => S754_zero false) flat_dem,
                amap (fun _ => of_int (-1)) flat_dem) /\
  reclassify_slope (amap (fun _ => S754_zero false) flat_dem) = full_like flat_dem 1 /\
  reclassify_aspect (amap (fun _ => of_int (-1)) flat_dem) = full_like flat_dem 2 /\
  calculate_weighted_risk (full_like flat_dem 1) (full_like flat_dem 2)
    (reclassify_vegetation flat_dem) = full_like flat_dem 2.
Proof. repeat split; vm_compute; reflexivity. Qed.

(** A steep south-facing cell with little fuel: 0.45 * 5 + 0.25 * 5 + 0.30 * 1
    = 3.8, risk 4. *)
Lemma steep_south_cell :
  reclassify_slope [[of_int 40]] = [[5]] /\ reclassify_aspect [[of_int 180]] = [[5]] /\
  calculate_weighted_risk [[5]] [[5]] [[1]] = [[4]].
Proof. repeat split; vm_compute; reflexivity. Qed.

(** The hole in [hole_dem] is not read, whatever the library: its own
    position gets a slope and an aspect that are not NaN, and the corner
    next to it gets NaN. *)
Lemma hole_dem_outputs L slope aspect :
  libm_ok L ->
  calculate_slope_aspect L hole_dem (of_int 10) = Returned (slope, aspect) ->
  (exists s a, cell slope 1 1 = Some s /\ cell aspect 1 1 = Some a /\
               is_nan s = false /\ is_nan a = false) /\
  cell slope 0 0 = Some nan /\ cell aspect 0 0 = Some nan.
Proof.
  intros OK H. split.
  - destruct (calculate_slope_aspect_cell L hole_dem (of_int 10) slope aspect 1 1 nan H eq_refl)
      as [Hs Ha].
    assert (dz_dx_at hole_dem (of_int 10) 1 1 = S754_zero false) as Ex by (by vm_compute).
    assert (dz_dy_at hole_dem (of_int 10) 1 1 = S754_zero false) as Ey by (by vm_compute).
    rewrite Ex, Ey in Hs, Ha.
    pose proof (slope_of_nan L (S754_zero false) (S754_zero false) OK) as Ns. simpl in Ns.
    eexists _, _. split; [exact Hs|]. split; [exact Ha|]. split.
    + destruct (slope_of_bound L (S754_zero false) (S754_zero false) OK)
        as [N|(F & _ & Lo & Hi)]; [congruence|].
      assert (F2Q (S754_finite false 11796480 (-17))
              == F2Q (S754_finite false 6333186975989760 (-46)))%Q as E by (by vm_compute).
      assert (F2Q (S754_finite false 6333186975989760 (-46)) == 90)%Q as E90
        by (by vm_compute).
      destruct (astype_float32_bound _ 11796480 (-17) 6333186975989760 (-46)
                  eq_refl eq_refl E F Lo) as (F' & _); [by rewrite E90|].
      by apply is_finite_not_nan.
    + unfold aspect_of. destruct (flt _ (of_int 1)); [reflexivity|].
      destruct (bearing_bound L (S754_zero false) (S754_zero false) OK eq_refl eq_refl)
        as (F & _ & Lo & Hi).
      assert (F2Q (S754_finite false 11796480 (-15))
              == F2Q (S754_finite false 6333186975989760 (-44)))%Q as E by (by vm_compute).
      assert (F2Q (S754_finite false 6333186975989760 (-44)) == 360)%Q as E360
        by (by vm_compute).
      destruct (astype_float32_bound _ 11796480 (-15) 6333186975989760 (-44)
                  eq_refl eq_refl E F Lo) as (F' & _); [by rewrite E360|].
      by apply is_finite_not_nan.
  - apply (nan_slope_cell L hole_dem (of_int 10) slope aspect 0 0 (of_int 100) OK H eq_refl).
    rewrite (slope_of_nan L _ _ OK).
    assert (is_nan (dz_dx_at hole_dem (of_int 10) 0 0) = true) as -> by (by vm_compute).
    reflexivity.
Qed.
